(** * Radix-tree symbol table (src/symtab.c)

    A shallow embedding of the tree backend of the symbol table and the
    properties of its public operations: [symtab_create], [symtab_put],
    [symtab_remove], [symtab_get] and [symtab_complete].

    Conventions of the embedding.
    - A [SymEntry *] is either [NULL] or a node with the four fields of
      [struct SYMTAB], so the C structure is the left-child right-sibling
      tree below; every node is owned by exactly one pointer, hence by
      exactly one position of the tree.
    - A C string is the [string] of its characters before the terminator.
    - An [int] is a [Z]; the code only copies values and tests them
      against zero.
    - Allocation never fails (the source does not check it either). *)

From Stdlib Require Import String Ascii ZArith List Bool Lia.
Import ListNotations.

Local Open Scope string_scope.
Local Open Scope Z_scope.

(** ** Data model *)

Inductive SymEntry : Type :=
| NULL
| Node (Next Children : SymEntry) (Piece : string) (Value : Z).

Definition Next (entry : SymEntry) : SymEntry :=
  match entry with Node n _ _ _ => n | NULL => NULL end.

Definition Children (entry : SymEntry) : SymEntry :=
  match entry with Node _ c _ _ => c | NULL => NULL end.

Definition Piece (entry : SymEntry) : string :=
  match entry with Node _ _ p _ => p | NULL => "" end.

Definition Value (entry : SymEntry) : Z :=
  match entry with Node _ _ _ v => v | NULL => 0 end.

Definition is_null (entry : SymEntry) : bool :=
  match entry with NULL => true | Node _ _ _ _ => false end.

(** [!*s] for a C string [s]. *)
Definition at_end (s : string) : bool :=
  match s with EmptyString => true | String _ _ => false end.

(** What a public call does: it returns a value and leaves a table, or
    it stops at [assert(value != 0)] with the table as it is at that
    point, or it dereferences a null pointer. *)
Inductive outcome : Type :=
| Returns (tab : SymEntry) (val : Z)
| Assertion_fails (tab : SymEntry)
| Null_dereference.

(** ** Private helpers *)

Definition _is_leaf (entry : SymEntry) : bool := negb (Value entry =? 0).

Definition _get_value (entry : SymEntry) : Z := Value entry.

Definition _set_leaf_value (entry : SymEntry) (value : Z) : SymEntry :=
  match entry with
  | Node n c p _ => Node n c p value
  | NULL => NULL
  end.

Definition _is_last (entry : SymEntry) : bool := is_null (Next entry).

Definition _has_children (entry : SymEntry) : bool :=
  negb (is_null (Children entry)).

Definition _has_exactly_one_child (entry : SymEntry) : bool :=
  _has_children entry && _is_last (Children entry).

(** [_entry_new], [n->Piece = _strdup(label)], [_set_leaf_value(n, value)]:
    the three lines shared by every place that makes a leaf. *)
Definition _entry_new (label : string) (value : Z) : SymEntry :=
  Node NULL NULL label value.

Definition _new_single_leaf (parent : SymEntry) (label : string) (value : Z)
  : SymEntry :=
  match parent with
  | Node n _ p v => Node n (_entry_new label value) p v
  | NULL => NULL
  end.

Definition _new_last_leaf (prev : SymEntry) (label : string) (value : Z)
  : SymEntry :=
  match prev with
  | Node _ c p v => Node (_entry_new label value) c p v
  | NULL => NULL
  end.

(** The inner loop shared by the four traversals,
    [while( *edge && *search && *edge == *search) { ++edge; ++search; }].
    The pointer [edge] into [entry->Piece] is kept as the pair of what
    lies before it and what lies from it on; the result is
    (matched part of the piece, rest of the piece, rest of the key).
    [edge == entry->Piece] holds exactly when the matched part is empty. *)
Fixpoint scan (edge search : string) : string * string * string :=
  match edge, search with
  | String a edge', String b search' =>
      if Ascii.eqb a b
      then let '(m, e, s) := scan edge' search' in (String a m, e, s)
      else ("", edge, search)
  | _, _ => ("", edge, search)
  end.

(** [_entry_split(entry, pos)] with [pos] given as (before, from):
    the piece is cut at [pos], the tail moves to a new node [second]
    that takes over value and children and becomes the only child. *)
Definition _entry_split (entry : SymEntry) (before from : string) : SymEntry :=
  match entry with
  | Node n c _ v => Node n (Node NULL c from v) before v
  | NULL => NULL
  end.

Definition _entry_split_for_child
  (entry : SymEntry) (before from label : string) (value : Z) : SymEntry :=
  match _entry_split entry before from with
  | Node n (Node _ c2 p2 v2) p _ =>
      Node n (Node (_entry_new label value) c2 p2 v2) p 0
  | other => other
  end.

Definition _entry_split_for_prefix
  (entry : SymEntry) (before from : string) (value : Z) : SymEntry :=
  _set_leaf_value (_entry_split entry before from) value.

Definition _entry_merge (parent child : SymEntry) : SymEntry :=
  match parent, child with
  | Node pn _ pp _, Node _ cc cp cv => Node pn cc (pp ++ cp) cv
  | _, _ => parent
  end.

(** [_entry_remove(entry, parent, prev)] writes to two places. The first
    is the pointer that led to [entry] ([prev->Next], or
    [parent->Children] when [prev] is null): it keeps pointing to the
    demoted (and possibly merged) entry, or is set to [entry->Next]. *)
Definition _entry_remove_entry (entry : SymEntry) : SymEntry :=
  if _has_children entry then
    let entry' := _set_leaf_value entry 0 in
    if _is_last (Children entry') then _entry_merge entry' (Children entry')
    else entry'
  else Next entry.

(** The second is [parent] itself, in the last statement of
    [_entry_remove]. *)
Definition _entry_remove_parent (parent : SymEntry) : SymEntry :=
  if negb (_is_leaf parent) && _has_exactly_one_child parent
  then _entry_merge parent (Children parent)
  else parent.

(** ** Public operations *)

Definition symtab_create (capacity : Z) : SymEntry := Node NULL NULL "" 42.

(** The loop of [symtab_put] from the position [entry]; the result is
    what the pointer that led to [entry] points to afterwards, and [val]. *)
Fixpoint put_loop (entry : SymEntry) (ident : string) (value : Z)
  : SymEntry * Z :=
  match entry with
  | NULL => (NULL, 0)
  | Node next children piece v =>
      let '(matched, edge, search) := scan piece ident in
      if at_end edge then
        if at_end search then
          (_set_leaf_value entry value, _get_value entry)
        else if negb (_has_children entry) then
          (_new_single_leaf entry search value, 0)
        else
          let '(c, val) := put_loop children search value in
          (Node next c piece v, val)
      else if at_end matched then
        if _is_last entry then
          (_new_last_leaf entry search value, 0)
        else
          let '(n, val) := put_loop next ident value in
          (Node n children piece v, val)
      else
        if negb (at_end search) then
          (_entry_split_for_child entry matched edge search value, 0)
        else
          (_entry_split_for_prefix entry matched edge value, 0)
  end.

Definition symtab_put (entry : SymEntry) (ident : string) (value : Z)
  : outcome :=
  if value =? 0 then Assertion_fails entry
  else let '(tab, val) := put_loop entry ident value in Returns tab val.

(** The loop of [symtab_remove] from the position [entry]. The third
    component tells that [_entry_remove] ran for an entry of this sibling
    chain: its [parent] is the node whose [Children] this chain is, and
    that node applies [_entry_remove_parent] to itself. [prev] is the
    node whose [Next] is being rebuilt, [parent->Children] otherwise. *)
Fixpoint remove_loop (entry : SymEntry) (ident : string)
  : SymEntry * Z * bool :=
  match entry with
  | NULL => (NULL, 0, false)
  | Node next children piece v =>
      let '(_, edge, search) := scan piece ident in
      if at_end edge then
        if at_end search && _is_leaf entry then
          (_entry_remove_entry entry, _get_value entry, true)
        else
          let '(c, val, removed) := remove_loop children search in
          let parent := Node next c piece v in
          (if removed then _entry_remove_parent parent else parent,
           val, false)
      else
        let '(n, val, removed) := remove_loop next ident in
        (Node n children piece v, val, removed)
  end.

(** At the entry the caller passes, [parent] is still the null pointer:
    when [_entry_remove] runs for an entry of that chain, it reads
    [parent->Value] (and writes [parent->Children] for a first entry
    without children). *)
Definition symtab_remove (entry : SymEntry) (ident : string) : outcome :=
  let '(tab, val, removed) := remove_loop entry ident in
  if removed then Null_dereference else Returns tab val.

Fixpoint symtab_get (entry : SymEntry) (ident : string) : Z :=
  match entry with
  | NULL => 0
  | Node next children piece v =>
      let '(_, edge, search) := scan piece ident in
      if at_end edge then
        if at_end search && _is_leaf entry then _get_value entry
        else symtab_get children search
      else symtab_get next ident
  end.

(** [symtab_complete]: the result is the string that starts at [ident]
    afterwards, and [modified]. The characters before [search] are the
    matched ones; writing the rest of the piece at [search] and the
    terminator after it leaves [matched ++ edge]. *)
Fixpoint symtab_complete (entry : SymEntry) (ident : string)
  : string * bool :=
  match entry with
  | NULL => (ident, false)
  | Node next children piece v =>
      let '(matched, edge, search) := scan piece ident in
      if at_end edge then
        if at_end search then (ident, false)
        else
          let '(rest, modified) := symtab_complete children search in
          (matched ++ rest, modified)
      else if at_end matched then symtab_complete next ident
      else (matched ++ edge, true)
  end.

(** ** Sequences of calls *)

Inductive call : Type :=
| Put (key : string) (value : Z)
| Remove (key : string)
| Get (key : string)
| Complete (buffer : string).

Definition table_of (o : outcome) : option SymEntry :=
  match o with
  | Returns tab _ => Some tab
  | _ => None
  end.

(** The table a call leaves, if the call returns. *)
Definition after (tab : SymEntry) (c : call) : option SymEntry :=
  match c with
  | Put k v => table_of (symtab_put tab k v)
  | Remove k => table_of (symtab_remove tab k)
  | Get _ => Some tab
  | Complete _ => Some tab
  end.

Fixpoint run (calls : list call) (tab : SymEntry) : option SymEntry :=
  match calls with
  | [] => Some tab
  | c :: rest =>
      match after tab c with
      | Some tab' => run rest tab'
      | None => None
      end
  end.

(** A call within its contract: [put] takes a key that is not empty
    and a value that is not zero. *)
Definition within_contract (c : call) : Prop :=
  match c with
  | Put k v => k <> "" /\ v <> 0
  | _ => True
  end.

(** Tables that calls within their contract build from a new table. *)
Definition reachable (tab : SymEntry) : Prop :=
  exists capacity calls,
    Forall within_contract calls /\
    run calls (symtab_create capacity) = Some tab.

(** ** Vocabulary of the properties *)

Definition head (s : string) : option ascii :=
  match s with
  | EmptyString => None
  | String a _ => Some a
  end.

(** Where the inner loop stops: at the end of the piece, at the end of
    the key, or in front of two different characters. *)
Definition stops (edge search : string) : Prop :=
  match edge, search with
  | String a _, String b _ => a <> b
  | _, _ => True
  end.

(** The nodes of a sibling chain, following [Next]. *)
Fixpoint siblings (entry : SymEntry) : list SymEntry :=
  match entry with
  | NULL => []
  | Node next _ _ _ => entry :: siblings next
  end.

Definition heads (entry : SymEntry) : list (option ascii) :=
  map (fun e => head (Piece e)) (siblings entry).

(** [inside n tab]: [n] is a node of the structure [tab] points to. *)
Inductive inside (n : SymEntry) : SymEntry -> Prop :=
| inside_here : forall next children piece v,
    n = Node next children piece v -> inside n n
| inside_next : forall next children piece v,
    inside n next -> inside n (Node next children piece v)
| inside_children : forall next children piece v,
    inside n children -> inside n (Node next children piece v).

(** Below the root no piece is empty and the pieces of a sibling chain
    start with different characters. *)
Fixpoint wf (entry : SymEntry) : Prop :=
  match entry with
  | NULL => True
  | Node next children piece _ =>
      piece <> "" /\ ~ In (head piece) (heads next) /\
      wf next /\ wf children
  end.

(** Below the root a node without a value has two children or more. *)
Fixpoint compact (entry : SymEntry) : Prop :=
  match entry with
  | NULL => True
  | Node next children _ v =>
      (v = 0 -> (2 <= length (siblings children))%nat) /\
      compact next /\ compact children
  end.

(** The shape every reachable table has: the root of [symtab_create]
    with its piece and value, over a well-formed compact forest. *)
Definition table (tab : SymEntry) : Prop :=
  exists children,
    tab = Node NULL children "" 42 /\ wf children /\ compact children.

(** [revalued a b]: [b] is [a] with the value of one node replaced;
    every piece and every [Next] and [Children] link is the same. *)
Inductive revalued : SymEntry -> SymEntry -> Prop :=
| revalued_here : forall next children piece v w,
    revalued (Node next children piece v) (Node next children piece w)
| revalued_next : forall next next' children piece v,
    revalued next next' ->
    revalued (Node next children piece v) (Node next' children piece v)
| revalued_children : forall next children children' piece v,
    revalued children children' ->
    revalued (Node next children piece v) (Node next children' piece v).

(** The calls that change a table, within the contract the interface
    gives them: keys are not empty, and [put] takes no zero. *)
Definition put_or_remove (c : call) : Prop :=
  match c with
  | Put k v => k <> "" /\ v <> 0
  | Remove k => k <> ""
  | _ => False
  end.

(** [binds entry key v]: the structure holds [v] at a node whose pieces
    along the path spell [key]. *)
Inductive binds : SymEntry -> string -> Z -> Prop :=
| binds_here : forall next children piece v,
    v <> 0 -> binds (Node next children piece v) piece v
| binds_children : forall next children piece v rest w,
    binds children rest w ->
    binds (Node next children piece v) (piece ++ rest) w
| binds_next : forall next children piece v key w,
    binds next key w -> binds (Node next children piece v) key w.

(** ** Teardown *)

(** What [symtab_destroy] hands to [free], in order: the piece of an
    entry, or the entry itself. *)
Inductive freed : Type :=
| Free_piece (piece : string)
| Free_entry.

(** [_entry_free] then is [[Free_piece piece; Free_entry]]. *)
Fixpoint _symtab_destroy (tab : SymEntry) : list freed :=
  match tab with
  | NULL => []
  | Node next children piece _ =>
      _symtab_destroy next ++ _symtab_destroy children ++
      [Free_piece piece; Free_entry]
  end.

(** The root is released with [free(tab)] alone: its piece is the
    string literal, and its [Next] is not visited. *)
Definition symtab_destroy (tab : SymEntry) : list freed :=
  _symtab_destroy (Children tab) ++ [Free_entry].

(** ** Vocabulary of the further properties *)

(** The map a history of calls describes: [put] binds, [remove]
    unbinds, 0 stands for no binding. *)
Definition map_after (m : string -> Z) (c : call) : string -> Z :=
  match c with
  | Put k v => fun x => if (x =? k)%string then v else m x
  | Remove k => fun x => if (x =? k)%string then 0 else m x
  | Get _ => m
  | Complete _ => m
  end.

Fixpoint map_run (calls : list call) (m : string -> Z) : string -> Z :=
  match calls with
  | [] => m
  | c :: rest => map_run rest (map_after m c)
  end.

(** [boundary entry s]: the pieces along a path from the chain [entry]
    down to some node spell [s]. *)
Inductive boundary : SymEntry -> string -> Prop :=
| boundary_here : forall next children piece v,
    boundary (Node next children piece v) piece
| boundary_children : forall next children piece v rest,
    boundary children rest ->
    boundary (Node next children piece v) (piece ++ rest)
| boundary_next : forall next children piece v s,
    boundary next s -> boundary (Node next children piece v) s.

(** The number of entries of a structure. *)
Fixpoint count_nodes (entry : SymEntry) : nat :=
  match entry with
  | NULL => 0
  | Node next children _ _ => S (count_nodes next + count_nodes children)
  end.

Definition is_entry_free (f : freed) : bool :=
  match f with Free_entry => true | Free_piece _ => false end.

(** ** Facts about the inner loop *)

Lemma append_empty_r : forall s, s ++ "" = s.
Proof. induction s; simpl; congruence. Qed.

Lemma scan_spec : forall p k m e s,
  scan p k = (m, e, s) -> p = m ++ e /\ k = m ++ s /\ stops e s.
Proof.
  induction p as [|a p IH]; intros k m e s H; simpl in H.
  - inversion H; subst. repeat split; exact I.
  - destruct k as [|b k].
    + inversion H; subst. repeat split; exact I.
    + destruct (Ascii.eqb a b) eqn:E.
      * apply Ascii.eqb_eq in E. subst b.
        destruct (scan p k) as [[m' e'] s'] eqn:S.
        inversion H; subst. destruct (IH _ _ _ _ S) as (-> & -> & Hd).
        repeat split; assumption.
      * apply Ascii.eqb_neq in E. inversion H; subst.
        repeat split; assumption.
Qed.

Lemma scan_stops : forall e s, stops e s -> scan e s = ("", e, s).
Proof.
  intros [|a e] [|b s] H; simpl; try reflexivity.
  simpl in H. apply Ascii.eqb_neq in H. now rewrite H.
Qed.

Lemma scan_app : forall m e s,
  scan (m ++ e) (m ++ s) =
  let '(m2, e2, s2) := scan e s in (m ++ m2, e2, s2).
Proof.
  induction m as [|a m IH]; intros e s; simpl.
  - now destruct (scan e s) as [[? ?] ?].
  - rewrite Ascii.eqb_refl, IH. now destruct (scan e s) as [[? ?] ?].
Qed.

Lemma scan_unique : forall m e s,
  stops e s -> scan (m ++ e) (m ++ s) = (m, e, s).
Proof.
  intros m e s H. rewrite scan_app, (scan_stops _ _ H).
  now rewrite append_empty_r.
Qed.

Lemma scan_self : forall p s, scan p (p ++ s) = (p, "", s).
Proof.
  intros p s. rewrite <- (append_empty_r p) at 1.
  apply scan_unique. exact I.
Qed.

Lemma append_inj_l : forall m s s', m ++ s = m ++ s' -> s = s'.
Proof.
  induction m; simpl; intros s s' H; [assumption|].
  inversion H. auto.
Qed.

Lemma head_append : forall m e, m <> "" -> head (m ++ e) = head m.
Proof. intros [|a m] e H; [congruence | reflexivity]. Qed.

(** ** A key that starts like no piece of a chain *)

Lemma scan_foreign : forall p k,
  p <> "" -> head k <> head p -> scan p k = ("", p, k).
Proof.
  intros [|a p] [|b k] Hp Hh; simpl; try congruence.
  destruct (Ascii.eqb a b) eqn:E; [|reflexivity].
  apply Ascii.eqb_eq in E. subst. now elim Hh.
Qed.

Lemma get_foreign : forall c k,
  wf c -> ~ In (head k) (heads c) -> symtab_get c k = 0.
Proof.
  induction c as [|n IHn ch _ p v]; intros k Hwf Hin; [reflexivity|].
  destruct Hwf as (Hp & _ & Hn & _).
  simpl. rewrite scan_foreign; auto.
  - destruct p; [congruence|]. simpl. apply IHn; auto.
    intro H. apply Hin. right. exact H.
  - intro H. apply Hin. left. simpl. now symmetry.
Qed.

Lemma get_empty : forall c, wf c -> symtab_get c "" = 0.
Proof.
  intros c Hwf. apply get_foreign; auto.
  unfold heads. rewrite in_map_iff. intros (e & He & Hin).
  revert Hwf Hin. induction c as [|n IHn ch _ p v]; simpl; [tauto|].
  intros (Hp & _ & Hn & _) [<-|Hin]; auto.
  simpl in He. destruct p; [congruence|discriminate].
Qed.

(** ** [symtab_put] keeps the forest well formed and compact *)

Tactic Notation "scan_on" constr(p) constr(k)
  "as" ident(m) ident(e) ident(s) ident(S) ident(Hp) ident(Hk) ident(Hst) :=
  destruct (scan p k) as [[m e] s] eqn:S;
  destruct (scan_spec _ _ _ _ _ S) as (Hp & Hk & Hst).

Lemma heads_node : forall n c p v,
  heads (Node n c p v) = head p :: heads n.
Proof. reflexivity. Qed.

Ltac fields :=
  cbn [negb andb at_end is_null Next Children Piece Value fst snd
       _is_leaf _get_value _set_leaf_value _is_last _has_children
       _has_exactly_one_child _new_single_leaf _new_last_leaf
       _entry_split _entry_split_for_child _entry_split_for_prefix
       _entry_merge] in *.

Ltac finish :=
  simpl in *; intuition (subst; simpl in *; try congruence; try lia; eauto).

Lemma put_loop_inv : forall c k v,
  wf c -> compact c -> k <> "" -> v <> 0 ->
  wf (fst (put_loop c k v)) /\
  compact (fst (put_loop c k v)) /\
  (length (siblings c) <= length (siblings (fst (put_loop c k v))))%nat /\
  (forall a, In a (heads (fst (put_loop c k v))) ->
             In a (heads c) \/ a = head k).
Proof.
  induction c as [|n IHn ch IHch p v0]; intros k v Hwf Hco Hk0 Hv.
  - simpl. auto.
  - destruct Hwf as (Hp0 & Hnin & Hwn & Hwc).
    destruct Hco as (Hv0 & Hcn & Hcc).
    unfold put_loop; fold put_loop. scan_on p k as m e s S Hp Hk Hst.
    destruct e as [|ea e]; simpl at_end; cbv iota.
    + (* the whole piece matched *)
      rewrite append_empty_r in Hp. subst m.
      destruct s as [|sa s]; simpl at_end; cbv iota.
      * finish.
      * destruct ch as [|cn cc cp cv].
        -- clear IHn IHch. finish.
        -- simpl negb. cbv iota.
           destruct (IHch (String sa s) v Hwc Hcc ltac:(discriminate) Hv)
             as (W & C & L & H).
           destruct (put_loop (Node cn cc cp cv) (String sa s) v) as [c' val].
           clear IHn IHch. finish.
    + destruct m as [|ma m]; simpl at_end; cbv iota.
      * (* nothing matched *)
        simpl in Hp, Hk. subst p k.
        assert (Hne : head (String ea e) <> head s).
        { destruct s; [congruence|]. simpl in *. congruence. }
        destruct n as [|nn nc np nv].
        -- clear IHn IHch. finish.
        -- simpl _is_last. cbv iota.
           destruct (IHn s v Hwn Hcn Hk0 Hv) as (W & C & L & H).
           destruct (put_loop (Node nn nc np nv) s v) as [n' val].
           simpl fst in *. rewrite !heads_node in *.
           clear IHn IHch.
           repeat split; auto.
           ++ intros Hin. apply H in Hin. destruct Hin; auto.
           ++ simpl in *. lia.
           ++ intros a [<-|Hin]; [left; now left|].
              apply H in Hin. destruct Hin; [left; now right|now right].
      * (* the piece is cut *)
        assert (Hh : head p = Some ma) by (subst p; reflexivity).
        clear IHn IHch.
        destruct s as [|sa s]; simpl negb; cbv iota; simpl;
          rewrite ?heads_node, ?Hh; simpl head.
        -- rewrite Hh in Hnin. finish.
        -- rewrite Hh in Hnin. finish.
Qed.

(** ** [symtab_remove] keeps the forest well formed and compact *)

Lemma merge_inv : forall n cc p cp cv,
  p <> "" -> ~ In (head p) (heads n) -> wf n -> compact n ->
  wf cc -> compact cc -> (cv = 0 -> (2 <= length (siblings cc))%nat) ->
  wf (Node n cc (p ++ cp) cv) /\ compact (Node n cc (p ++ cp) cv) /\
  head (p ++ cp) = head p.
Proof.
  intros n cc p cp cv Hp Hnin Hwn Hcn Hwc Hcc Hlen.
  assert (Hh : head (p ++ cp) = head p) by now apply head_append.
  simpl. rewrite Hh. intuition.
  destruct p; simpl in *; congruence.
Qed.

Lemma remove_entry_inv : forall n ch p v,
  wf (Node n ch p v) -> compact (Node n ch p v) ->
  wf (_entry_remove_entry (Node n ch p v)) /\
  compact (_entry_remove_entry (Node n ch p v)) /\
  (forall a, In a (heads (_entry_remove_entry (Node n ch p v))) ->
             In a (heads (Node n ch p v))) /\
  (length (siblings (Node n ch p v)) <=
   S (length (siblings (_entry_remove_entry (Node n ch p v)))))%nat.
Proof.
  intros n ch p v Hwf Hco.
  destruct ch as [|[|cnn cnc cnp cnv] cc cp cv].
  - finish.
  - unfold _entry_remove_entry. simpl.
    destruct (merge_inv n cc p cp cv) as (W & C & H); [finish..|].
    repeat split; try apply W; try apply C.
    + rewrite H. auto.
    + lia.
  - unfold _entry_remove_entry. simpl _has_children. cbv iota.
    finish.
Qed.

Lemma remove_parent_inv : forall n c p v,
  p <> "" -> ~ In (head p) (heads n) -> wf n -> compact n ->
  wf c -> compact c -> (v = 0 -> (1 <= length (siblings c))%nat) ->
  wf (_entry_remove_parent (Node n c p v)) /\
  compact (_entry_remove_parent (Node n c p v)) /\
  heads (_entry_remove_parent (Node n c p v)) = heads (Node n c p v) /\
  length (siblings (_entry_remove_parent (Node n c p v))) =
  length (siblings (Node n c p v)).
Proof.
  intros n c p v Hp Hnin Hwn Hcn Hwc Hcc Hlen.
  unfold _entry_remove_parent, _is_leaf. simpl Value.
  destruct (Z.eqb_spec v 0) as [->|Hv]; simpl negb.
  - destruct c as [|[|cnn cnc cnp cnv] cc cp cv].
    + simpl in Hlen. specialize (Hlen eq_refl). lia.
    + fields.
      destruct (merge_inv n cc p cp cv) as (W & C & H); [finish..|].
      rewrite !heads_node, H. auto.
    + fields. finish.
  - fields. finish.
Qed.

Lemma remove_loop_inv : forall c k c' val removed,
  wf c -> compact c -> remove_loop c k = (c', val, removed) ->
  wf c' /\ compact c' /\
  (forall a, In a (heads c') -> In a (heads c)) /\
  (removed = false -> length (siblings c') = length (siblings c)) /\
  (length (siblings c) <= S (length (siblings c')))%nat.
Proof.
  induction c as [|n IHn ch IHch p v0]; intros k c' val removed Hwf Hco R.
  - inversion R; subst. finish.
  - unfold remove_loop in R; fold remove_loop in R. scan_on p k as m e s S Hp Hk Hst.
    destruct e as [|ea e]; simpl at_end in R; cbv iota in R.
    + destruct (at_end s && _is_leaf (Node n ch p v0)).
      * injection R as <- <- <-.
        destruct (remove_entry_inv n ch p v0 Hwf Hco) as (W & C & H & L).
        repeat split; auto. discriminate.
      * destruct (remove_loop ch s) as [[c1 val1] r1] eqn:R1.
        destruct Hwf as (Hp0 & Hnin & Hwn & Hwc).
        destruct Hco as (Hv0 & Hcn & Hcc).
        destruct (IHch _ _ _ _ Hwc Hcc R1) as (W & C & H & E & L).
        injection R as <- <- <-.
        destruct r1.
        -- destruct (remove_parent_inv n c1 p v0) as (W' & C' & H' & L');
             auto; [intros Z0; specialize (Hv0 Z0); lia|].
           rewrite H', L'. repeat split; auto.
        -- specialize (E eq_refl). clear IHn IHch. finish.
    + destruct (remove_loop n k) as [[n1 val1] r1] eqn:R1.
      destruct Hwf as (Hp0 & Hnin & Hwn & Hwc).
      destruct Hco as (Hv0 & Hcn & Hcc).
      destruct (IHn _ _ _ _ Hwn Hcn R1) as (W & C & H & E & L).
      injection R as <- <- <-. clear IHn IHch.
      rewrite !heads_node. simpl siblings. simpl length.
      repeat split; auto.
      * simpl. intros a [<-|Hin]; auto.
      * lia.
Qed.

(** ** What [symtab_get] finds *)

Lemma append_assoc : forall a b c, (a ++ b) ++ c = a ++ (b ++ c).
Proof. induction a; simpl; intros; congruence. Qed.

Lemma get_hit : forall n c p v s,
  symtab_get (Node n c p v) (p ++ s) =
  if at_end s && negb (v =? 0) then v else symtab_get c s.
Proof. intros. simpl. now rewrite scan_self. Qed.

Lemma get_miss : forall n c m e v s,
  e <> "" -> stops e s ->
  symtab_get (Node n c (m ++ e) v) (m ++ s) = symtab_get n (m ++ s).
Proof.
  intros n c m e v s He Hst. simpl. rewrite scan_unique by assumption.
  destruct e; [congruence | reflexivity].
Qed.

Lemma get_miss0 : forall n c e v s,
  e <> "" -> stops e s ->
  symtab_get (Node n c e v) s = symtab_get n s.
Proof. intros. now apply (get_miss n c "" e v s). Qed.

Lemma get_leaf_other : forall label v k,
  k <> label -> symtab_get (_entry_new label v) k = 0.
Proof.
  intros label v k Hne. unfold _entry_new. scan_on label k as m e s S Hp Hk Hst. subst.
  destruct e as [|ea e].
  - rewrite append_empty_r in *. rewrite get_hit.
    destruct s; [now rewrite append_empty_r in Hne|reflexivity].
  - now rewrite get_miss.
Qed.

(** Cutting a piece in two, as [_entry_split] does, and gluing it, as
    [_entry_merge] does, are invisible to lookups. *)
Lemma get_cut : forall n ch m e v0 k,
  wf n -> m <> "" -> e <> "" -> ~ In (head m) (heads n) ->
  symtab_get (Node n (Node NULL ch e v0) m 0) k =
  symtab_get (Node n ch (m ++ e) v0) k.
Proof.
  intros n ch m e v0 k Hwn Hm He Hnin.
  assert (Hfar : forall s, symtab_get n (m ++ s) = 0).
  { intros s. apply get_foreign; auto. now rewrite head_append. }
  scan_on m k as m1 e1 s1 S1 Hp1 Hk1 Hst1. subst k.
  destruct e1 as [|ea e1].
  - rewrite append_empty_r in Hp1. subst m1. rewrite get_hit.
    rewrite andb_false_r.
    scan_on e s1 as m2 e2 s2 S2 Hp2 Hk2 Hst2. subst s1.
    destruct e2 as [|eb e2].
    + rewrite append_empty_r in Hp2. subst m2.
      now rewrite <- append_assoc, !get_hit.
    + subst e. rewrite get_miss by (auto; discriminate).
      rewrite <- !append_assoc.
      rewrite get_miss by (auto; discriminate).
      rewrite append_assoc, Hfar. reflexivity.
  - subst m. rewrite append_assoc.
    rewrite !get_miss; auto; discriminate.
Qed.

Lemma get_set_value : forall n c p v w k,
  k <> p ->
  symtab_get (Node n c p v) k = symtab_get (Node n c p w) k.
Proof.
  intros n c p v w k Hne. scan_on p k as m e s S Hp Hk Hst. subst k.
  destruct e as [|ea e].
  - rewrite append_empty_r in Hp. subst m. rewrite !get_hit.
    destruct s; [now rewrite append_empty_r in Hne|reflexivity].
  - subst p. now rewrite !get_miss.
Qed.

Lemma get_demote : forall n c p v k,
  wf c ->
  symtab_get (Node n c p 0) k =
  if (k =? p)%string then 0 else symtab_get (Node n c p v) k.
Proof.
  intros n c p v k Hwc. destruct (String.eqb_spec k p) as [->|Hne].
  - rewrite <- (append_empty_r p) at 2. rewrite get_hit. simpl.
    now apply get_empty.
  - now apply get_set_value.
Qed.

(** ** Lookups after [symtab_put] *)

Lemma get_leaf_same : forall label v,
  v <> 0 -> symtab_get (_entry_new label v) label = v.
Proof.
  intros label v Hv. rewrite <- (append_empty_r label) at 2.
  unfold _entry_new. rewrite get_hit. simpl.
  destruct (Z.eqb_spec v 0); [contradiction | reflexivity].
Qed.

Lemma put_loop_same : forall c k v,
  is_null c = false -> k <> "" -> v <> 0 ->
  symtab_get (fst (put_loop c k v)) k = v.
Proof.
  induction c as [|n IHn ch IHch p v0]; intros k v Hc Hk0 Hv;
    [discriminate|].
  assert (Hvb : negb (v =? 0) = true)
    by (apply negb_true_iff; now apply Z.eqb_neq).
  unfold put_loop; fold put_loop.
  scan_on p k as m e s S Hp Hk Hst.
  destruct e as [|ea e]; fields.
  - rewrite append_empty_r in Hp. subst m k.
    destruct s as [|sa s]; fields.
    + rewrite get_hit; cbn [at_end andb]. now rewrite Hvb.
    + destruct ch as [|cn cc cp cv]; fields.
      * rewrite get_hit; cbn [at_end andb]. now apply get_leaf_same.
      * specialize (IHch (String sa s) v eq_refl ltac:(discriminate) Hv).
        destruct (put_loop (Node cn cc cp cv) (String sa s) v) as [c' val].
        simpl fst in *. rewrite get_hit; cbn [at_end andb]. exact IHch.
  - destruct m as [|ma m]; fields.
    + simpl in Hp, Hk. subst p k.
      destruct n as [|nn nc np nv]; fields.
      * rewrite get_miss0 by (auto; discriminate).
        now apply get_leaf_same.
      * specialize (IHn s v eq_refl Hk0 Hv).
        destruct (put_loop (Node nn nc np nv) s v) as [n' val].
        simpl fst in *. now rewrite get_miss0 by (auto; discriminate).
    + subst k. destruct s as [|sa s]; fields.
      * rewrite get_hit; cbn [at_end andb]. now rewrite Hvb.
      * rewrite get_hit. simpl at_end. cbv iota.
        rewrite get_miss0 by (auto; discriminate).
        now apply get_leaf_same.
Qed.

Lemma put_loop_other : forall c k v k',
  wf c -> k <> "" -> k' <> k ->
  symtab_get (fst (put_loop c k v)) k' = symtab_get c k'.
Proof.
  induction c as [|n IHn ch IHch p v0]; intros k v k' Hwf Hk0 Hne;
    [reflexivity|].
  destruct Hwf as (Hp0 & Hnin & Hwn & Hwc).
  unfold put_loop; fold put_loop.
  scan_on p k as m e s S Hp Hk Hst.
  destruct e as [|ea e]; fields.
  - rewrite append_empty_r in Hp. subst m.
    destruct s as [|sa s]; fields.
    + rewrite append_empty_r in Hk. subst k. now apply get_set_value.
    + scan_on p k' as m' e' s' S' Hp' Hk' Hst'.
      assert (Hsub : forall c',
        (forall x, x <> String sa s ->
                   symtab_get c' x = symtab_get ch x) ->
        symtab_get (Node n c' p v0) k' = symtab_get (Node n ch p v0) k').
      { intros c' Hc'. destruct e' as [|eb e'].
        - rewrite append_empty_r in Hp'. subst m' k'. rewrite !get_hit.
          destruct (at_end s' && negb (v0 =? 0)); [reflexivity|].
          apply Hc'. intros ->. now subst k.
        - subst k'. rewrite Hp'. now rewrite !get_miss. }
      destruct ch as [|cn cc cp cv]; fields.
      * apply Hsub. intros x Hx. now apply get_leaf_other.
      * pose proof (fun x => IHch (String sa s) v x Hwc
                       ltac:(discriminate)) as IH.
        destruct (put_loop (Node cn cc cp cv) (String sa s) v) as [c' val].
        simpl fst in *. apply Hsub. exact IH.
  - destruct m as [|ma m]; fields.
    + simpl in Hp, Hk. subst s. clear S.
      scan_on p k' as m' e' s' S' Hp' Hk' Hst'.
      assert (Hsub : forall n',
        symtab_get n' k' = symtab_get n k' ->
        symtab_get (Node n' ch p v0) k' = symtab_get (Node n ch p v0) k').
      { intros n' Hn'. destruct e' as [|eb e'].
        - rewrite append_empty_r in Hp'. subst m' k'. now rewrite !get_hit.
        - subst k'. rewrite Hp'. rewrite !get_miss; auto; discriminate. }
      destruct n as [|nn nc np nv]; fields.
      * apply Hsub. now apply get_leaf_other.
      * pose proof (IHn k v k' Hwn Hk0 Hne) as IH.
        destruct (put_loop (Node nn nc np nv) k v) as [n' val].
        simpl fst in *. apply Hsub. exact IH.
    + assert (Hcut : ~ In (head (String ma m)) (heads n)).
      { replace (head (String ma m)) with (head p); [assumption|].
        now subst p. }
      destruct s as [|sa s]; fields.
      * rewrite append_empty_r in Hk.
        rewrite <- (get_set_value n _ _ 0 v) by congruence.
        rewrite Hp. apply get_cut; auto; discriminate.
      * rewrite Hp.
        rewrite <- (get_cut n ch (String ma m) (String ea e) v0 k');
          auto; try discriminate.
        scan_on (String ma m) k' as m' e' s' S' Hp' Hk' Hst'.
        destruct e' as [|eb e'].
        -- rewrite append_empty_r in Hp'. subst m' k'. rewrite !get_hit.
           rewrite andb_false_r.
           scan_on (String ea e) s' as m2 e2 s2 S2 Hp2 Hk2 Hst2.
           destruct e2 as [|ec e2].
           ++ rewrite append_empty_r in Hp2. subst m2 s'.
              now rewrite !get_hit.
           ++ subst s'. rewrite Hp2.
              rewrite !get_miss by (auto; discriminate).
              apply get_leaf_other. intros E. apply Hne.
              subst k. now rewrite E.
        -- subst k'. rewrite Hp'. rewrite !get_miss; auto; discriminate.
Qed.

Lemma put_loop_val : forall c k v,
  wf c -> k <> "" -> snd (put_loop c k v) = symtab_get c k.
Proof.
  induction c as [|n IHn ch IHch p v0]; intros k v Hwf Hk0;
    [reflexivity|].
  destruct Hwf as (Hp0 & Hnin & Hwn & Hwc).
  unfold put_loop, symtab_get; fold put_loop; fold symtab_get.
  scan_on p k as m e s S Hp Hk Hst.
  destruct e as [|ea e]; fields.
  - destruct s as [|sa s]; fields.
    + unfold _is_leaf. cbn [Value].
      destruct (Z.eqb_spec v0 0) as [->|Hv0]; simpl; auto.
      symmetry. now apply get_empty.
    + destruct ch as [|cn cc cp cv]; fields; [reflexivity|].
      specialize (IHch (String sa s) v Hwc ltac:(discriminate)).
      destruct (put_loop (Node cn cc cp cv) (String sa s) v) as [c' val].
      exact IHch.
  - destruct m as [|ma m]; fields.
    + destruct n as [|nn nc np nv]; fields; [reflexivity|].
      specialize (IHn k v Hwn Hk0).
      destruct (put_loop (Node nn nc np nv) k v) as [n' val].
      exact IHn.
    + assert (Hfar : symtab_get n k = 0).
      { apply get_foreign; auto. subst p k. exact Hnin. }
      rewrite Hfar. now destruct s.
Qed.

(** An overwrite changes a value and nothing else. *)
Lemma put_loop_revalued : forall c k v,
  wf c -> symtab_get c k <> 0 ->
  revalued c (fst (put_loop c k v)).
Proof.
  induction c as [|n IHn ch IHch p v0]; intros k v Hwf Hget;
    [now elim Hget|].
  destruct Hwf as (Hp0 & Hnin & Hwn & Hwc).
  unfold put_loop; fold put_loop.
  unfold symtab_get in Hget; fold symtab_get in Hget.
  scan_on p k as m e s S Hp Hk Hst.
  destruct e as [|ea e]; fields.
  - destruct s as [|sa s]; fields; [constructor|].
    destruct ch as [|cn cc cp cv]; fields; [now elim Hget|].
    specialize (IHch (String sa s) v Hwc Hget).
    destruct (put_loop (Node cn cc cp cv) (String sa s) v) as [c' val].
    now constructor.
  - destruct m as [|ma m]; fields.
    + destruct n as [|nn nc np nv]; fields; [now elim Hget|].
      specialize (IHn k v Hwn Hget).
      destruct (put_loop (Node nn nc np nv) k v) as [n' val].
      now constructor.
    + elim Hget. apply get_foreign; auto. subst p k. exact Hnin.
Qed.

(** ** Lookups after [symtab_remove] *)

Lemma remove_loop_val : forall c k,
  snd (fst (remove_loop c k)) = symtab_get c k.
Proof.
  induction c as [|n IHn ch IHch p v0]; intros k; [reflexivity|].
  unfold remove_loop, symtab_get; fold remove_loop; fold symtab_get.
  destruct (scan p k) as [[m e] s].
  destruct (at_end e).
  - destruct (at_end s && _is_leaf (Node n ch p v0)); [reflexivity|].
    specialize (IHch s). destruct (remove_loop ch s) as [[c1 val1] r1].
    exact IHch.
  - specialize (IHn k). destruct (remove_loop n k) as [[n1 val1] r1].
    exact IHn.
Qed.

Lemma remove_loop_absent : forall c k,
  symtab_get c k = 0 -> remove_loop c k = (c, 0, false).
Proof.
  induction c as [|n IHn ch IHch p v0]; intros k Hget; [reflexivity|].
  unfold remove_loop; fold remove_loop.
  unfold symtab_get in Hget; fold symtab_get in Hget.
  destruct (scan p k) as [[m e] s].
  destruct (at_end e).
  - destruct (at_end s && _is_leaf (Node n ch p v0)) eqn:E.
    + apply andb_prop in E. destruct E as [_ E].
      unfold _is_leaf, _get_value in *. rewrite Hget in E. discriminate.
    + now rewrite (IHch s Hget).
  - now rewrite (IHn k Hget).
Qed.

Lemma get_remove_parent : forall n c p v k,
  wf n -> p <> "" -> ~ In (head p) (heads n) -> wf c ->
  symtab_get (_entry_remove_parent (Node n c p v)) k =
  symtab_get (Node n c p v) k.
Proof.
  intros n c p v k Hwn Hp Hnin Hwc.
  unfold _entry_remove_parent, _is_leaf. cbn [Value].
  destruct (Z.eqb_spec v 0) as [->|Hv]; [|reflexivity].
  destruct c as [|[|cnn cnc cnp cnv] cc cp cv]; fields; try reflexivity.
  symmetry. apply get_cut; auto. apply Hwc.
Qed.

Lemma get_remove_entry : forall n ch p v k,
  wf (Node n ch p v) ->
  symtab_get (_entry_remove_entry (Node n ch p v)) k =
  if (k =? p)%string then 0 else symtab_get (Node n ch p v) k.
Proof.
  intros n ch p v k (Hp & Hnin & Hwn & Hwc).
  assert (Hfar : forall s, symtab_get n (p ++ s) = 0).
  { intros s. apply get_foreign; auto. now rewrite head_append. }
  unfold _entry_remove_entry.
  destruct ch as [|[|cnn cnc cnp cnv] cc cp cv]; fields.
  - destruct (String.eqb_spec k p) as [->|Hne].
    + rewrite <- (append_empty_r p). apply Hfar.
    + scan_on p k as m e s S Hp' Hk Hst. destruct e as [|ea e].
      * rewrite append_empty_r in Hp'. subst m k. rewrite get_hit, Hfar.
        destruct s; [now rewrite append_empty_r in Hne|reflexivity].
      * subst k. rewrite Hp'. now rewrite get_miss.
  - rewrite <- get_cut; auto; [|apply Hwc].
    apply get_demote. exact Hwc.
  - apply get_demote. exact Hwc.
Qed.

Lemma remove_loop_get : forall c k c' val removed k',
  wf c -> compact c -> remove_loop c k = (c', val, removed) ->
  symtab_get c' k' = if (k' =? k)%string then 0 else symtab_get c k'.
Proof.
  induction c as [|n IHn ch IHch p v0];
    intros k c' val removed k' Hwf Hco R.
  - injection R as <- <- <-. now destruct (k' =? k)%string.
  - unfold remove_loop in R; fold remove_loop in R.
    scan_on p k as m e s S Hp Hk Hst.
    destruct e as [|ea e]; cbn [at_end] in R.
    + rewrite append_empty_r in Hp. subst m.
      destruct (at_end s && _is_leaf (Node n ch p v0)) eqn:C.
      * injection R as <- <- <-.
        apply andb_prop in C. destruct C as [C _].
        destruct s; [|discriminate]. rewrite append_empty_r in Hk.
        subst k. now apply get_remove_entry.
      * destruct (remove_loop ch s) as [[c1 val1] r1] eqn:R1.
        injection R as <- <- <-.
        destruct Hwf as (Hp0 & Hnin & Hwn & Hwc).
        destruct Hco as (Hv0 & Hcn & Hcc).
        destruct (remove_loop_inv _ _ _ _ _ Hwc Hcc R1) as (W & _).
        assert (IH := fun x => IHch s c1 val1 r1 x Hwc Hcc R1).
        assert (E : symtab_get (Node n c1 p v0) k' =
                    if (k' =? k)%string then 0
                    else symtab_get (Node n ch p v0) k').
        { scan_on p k' as m' e' s' S' Hp' Hk' Hst'.
          destruct e' as [|eb e'].
          - rewrite append_empty_r in Hp'. subst m' k' k.
            rewrite !get_hit, IH.
            destruct (String.eqb_spec s' s) as [->|Hne].
            + unfold _is_leaf in C. cbn [Value] in C.
              rewrite String.eqb_refl, C. reflexivity.
            + destruct (String.eqb_spec (p ++ s') (p ++ s)) as [E|_];
                [apply append_inj_l in E; contradiction|].
              now destruct (at_end s' && negb (v0 =? 0)).
          - destruct (String.eqb_spec k' k) as [->|_].
            + rewrite S in S'. discriminate.
            + subst k'. rewrite Hp'. now rewrite !get_miss. }
        destruct r1; [|exact E].
        rewrite get_remove_parent; auto.
    + destruct (remove_loop n k) as [[n1 val1] r1] eqn:R1.
      injection R as <- <- <-.
      destruct Hwf as (Hp0 & Hnin & Hwn & Hwc).
      destruct Hco as (Hv0 & Hcn & Hcc).
      assert (IH := IHn k n1 val1 r1 k' Hwn Hcn R1).
      scan_on p k' as m' e' s' S' Hp' Hk' Hst'.
      destruct e' as [|eb e'].
      * destruct (String.eqb_spec k' k) as [->|_].
        -- rewrite S in S'. discriminate.
        -- rewrite append_empty_r in Hp'. subst m' k'.
           now rewrite !get_hit.
      * subst k'. rewrite Hp'.
        rewrite !get_miss by (auto; discriminate). exact IH.
Qed.

(** ** The table as a whole *)

Lemma table_create : forall capacity, table (symtab_create capacity).
Proof. intros. exists NULL. simpl. auto. Qed.

Lemma get_root : forall c k,
  symtab_get (Node NULL c "" 42) k = if at_end k then 42 else symtab_get c k.
Proof.
  intros c k. change k with ("" ++ k) at 1. rewrite get_hit.
  now destruct (at_end k).
Qed.

Lemma put_loop_root : forall c k v,
  k <> "" ->
  put_loop (Node NULL c "" 42) k v =
  match c with
  | NULL => (Node NULL (_entry_new k v) "" 42, 0)
  | _ => (Node NULL (fst (put_loop c k v)) "" 42, snd (put_loop c k v))
  end.
Proof.
  intros c k v Hk. destruct k as [|a k]; [congruence|].
  unfold put_loop at 1; fold put_loop. cbn [scan at_end].
  destruct c as [|cn cc cp cv]; fields; [reflexivity|].
  now destruct (put_loop (Node cn cc cp cv) (String a k) v).
Qed.

Lemma remove_loop_root : forall c k,
  k <> "" ->
  remove_loop (Node NULL c "" 42) k =
  (Node NULL (fst (fst (remove_loop c k))) "" 42,
   snd (fst (remove_loop c k)), false).
Proof.
  intros c k Hk. destruct k as [|a k]; [congruence|].
  unfold remove_loop at 1; fold remove_loop. cbn [scan at_end andb].
  destruct (remove_loop c (String a k)) as [[c1 val] r].
  now destruct r.
Qed.

Lemma put_table : forall tab k v,
  table tab -> k <> "" -> v <> 0 ->
  exists tab',
    symtab_put tab k v = Returns tab' (symtab_get tab k) /\
    table tab' /\
    symtab_get tab' k = v /\
    (forall k', k' <> k -> symtab_get tab' k' = symtab_get tab k').
Proof.
  intros tab k v (c & -> & Hwf & Hco) Hk Hv.
  assert (Hsame := put_loop_same (Node NULL c "" 42) k v eq_refl Hk Hv).
  unfold symtab_put. destruct (Z.eqb_spec v 0) as [|_]; [contradiction|].
  rewrite put_loop_root in * by assumption.
  rewrite get_root. destruct (at_end k) eqn:Ek;
    [destruct k; [congruence|discriminate]|].
  destruct c as [|cn cc cp cv].
  - eexists. split; [reflexivity|]. repeat split; auto.
    + exists (_entry_new k v). simpl. intuition.
    + intros k' Hne. rewrite !get_root. destruct (at_end k'); auto.
      now apply get_leaf_other.
  - set (c := Node cn cc cp cv) in *.
    destruct (put_loop_inv c k v Hwf Hco Hk Hv) as (W & C & _).
    eexists. split; [rewrite (put_loop_val c k v Hwf Hk); reflexivity|].
    repeat split; auto.
    + now exists (fst (put_loop c k v)).
    + intros k' Hne. rewrite !get_root. destruct (at_end k'); auto.
      now apply put_loop_other.
Qed.

Lemma remove_table : forall tab k,
  table tab -> k <> "" ->
  exists tab',
    remove_loop tab k = (tab', symtab_get tab k, false) /\
    symtab_remove tab k = Returns tab' (symtab_get tab k) /\
    table tab' /\
    (forall k', symtab_get tab' k' =
                if (k' =? k)%string then 0 else symtab_get tab k').
Proof.
  intros tab k (c & -> & Hwf & Hco) Hk.
  unfold symtab_remove. rewrite remove_loop_root by assumption.
  rewrite remove_loop_val, get_root.
  destruct (at_end k) eqn:Ek; [destruct k; [congruence|discriminate]|].
  destruct (remove_loop c k) as [[c1 val] r] eqn:R. cbn [fst snd].
  destruct (remove_loop_inv _ _ _ _ _ Hwf Hco R) as (W & C & _).
  eexists. repeat split; try reflexivity.
  - now exists c1.
  - intros k'. rewrite !get_root.
    destruct (String.eqb_spec k' k) as [->|Hne].
    + rewrite Ek. rewrite (remove_loop_get _ _ _ _ _ k Hwf Hco R).
      now rewrite String.eqb_refl.
    + destruct (at_end k'); auto.
      rewrite (remove_loop_get _ _ _ _ _ k' Hwf Hco R).
      destruct (String.eqb_spec k' k); [contradiction|reflexivity].
Qed.

Lemma remove_table_empty : forall tab,
  table tab -> symtab_remove tab "" = Null_dereference.
Proof. intros tab (c & -> & _). reflexivity. Qed.

Lemma after_table : forall tab c tab',
  table tab -> within_contract c -> after tab c = Some tab' -> table tab'.
Proof.
  intros tab [k v|k|k|b] tab' Ht Hc H; simpl in H.
  - destruct Hc as (Hk & Hv).
    destruct (put_table tab k v Ht Hk Hv) as (t & E & T & _).
    rewrite E in H. simpl in H. now injection H as <-.
  - destruct k as [|a k].
    + now rewrite remove_table_empty in H.
    + destruct (remove_table tab (String a k) Ht ltac:(discriminate))
        as (t & _ & E & T & _).
      rewrite E in H. simpl in H. now injection H as <-.
  - now injection H as <-.
  - now injection H as <-.
Qed.

Lemma run_table : forall calls tab tab',
  table tab -> Forall within_contract calls ->
  run calls tab = Some tab' -> table tab'.
Proof.
  induction calls as [|c calls IH]; intros tab tab' Ht Hc H; simpl in H.
  - now injection H as <-.
  - inversion Hc as [|? ? Hc1 Hc2]; subst.
    destruct (after tab c) as [t|] eqn:E; [|discriminate].
    apply (IH t tab'); auto. now apply (after_table tab c t).
Qed.

Lemma reachable_table : forall tab, reachable tab -> table tab.
Proof.
  intros tab (capacity & calls & Hc & H).
  apply (run_table calls (symtab_create capacity) tab); auto.
  apply table_create.
Qed.

Lemma symtab_put_eq : forall tab k v,
  v <> 0 ->
  symtab_put tab k v =
  Returns (fst (put_loop tab k v)) (snd (put_loop tab k v)).
Proof.
  intros tab k v Hv. unfold symtab_put.
  destruct (Z.eqb_spec v 0) as [|_]; [contradiction|].
  now destruct (put_loop tab k v).
Qed.

Lemma run_absent : forall calls tab tab' k,
  table tab -> Forall within_contract calls ->
  run calls tab = Some tab' -> k <> "" ->
  (forall v, ~ In (Put k v) calls) ->
  symtab_get tab k = 0 -> symtab_get tab' k = 0.
Proof.
  induction calls as [|c calls IH]; intros tab tab' k Ht Hc H Hk Hnin Hget;
    simpl in H.
  - now injection H as <-.
  - inversion Hc as [|? ? Hc1 Hc2]; subst.
    destruct (after tab c) as [t|] eqn:E; [|discriminate].
    apply (IH t tab' k); auto.
    + now apply (after_table tab c t).
    + intros v Hin. apply (Hnin v). now right.
    + destruct c as [k1 v1|k1|k1|b]; simpl in E.
      * destruct Hc1 as (Hk1 & Hv1).
        destruct (put_table tab k1 v1 Ht Hk1 Hv1) as (t' & E' & _ & _ & F).
        rewrite E' in E. injection E as <-. rewrite F; auto.
        intros ->. apply (Hnin v1). now left.
      * destruct k1 as [|a k1].
        -- now rewrite remove_table_empty in E.
        -- destruct (remove_table tab (String a k1) Ht ltac:(discriminate))
             as (t' & _ & E' & _ & F).
           rewrite E' in E. injection E as <-. rewrite F, Hget.
           now destruct (k =? String a k1)%string.
      * now injection E as <-.
      * now injection E as <-.
Qed.

Lemma run_put_or_remove : forall calls tab,
  table tab -> Forall put_or_remove calls ->
  exists tab', run calls tab = Some tab' /\ table tab'.
Proof.
  induction calls as [|c calls IH]; intros tab Ht Hc.
  - now exists tab.
  - inversion Hc as [|? ? Hc1 Hc2]; subst.
    assert (exists t, after tab c = Some t /\ table t) as (t & E & T).
    { destruct c as [k v|k|k|b]; simpl in Hc1; try contradiction.
      - destruct Hc1 as (Hk & Hv).
        destruct (put_table tab k v Ht Hk Hv) as (t & E & T & _).
        exists t. simpl. now rewrite E.
      - destruct (remove_table tab k Ht Hc1) as (t & _ & E & T & _).
        exists t. simpl. now rewrite E. }
    destruct (IH t T Hc2) as (tab' & R & T').
    exists tab'. simpl. now rewrite E.
Qed.

Lemma inside_null : forall n, ~ inside n NULL.
Proof.
  intros n H. remember NULL as t eqn:E.
  destruct H; subst; discriminate.
Qed.

Lemma compact_inside : forall c n,
  compact c -> inside n c -> Value n = 0 ->
  (2 <= length (siblings (Children n)))%nat.
Proof.
  intros c n Hco Hin. revert Hco.
  induction Hin as [next children piece v E|next children piece v _ IH
                   |next children piece v _ IH]; intros Hco Hv.
  - subst n. simpl in *. now apply Hco.
  - apply IH; auto. apply Hco.
  - apply IH; auto. apply Hco.
Qed.

Lemma wf_inside : forall c n, wf c -> inside n c -> wf (Children n).
Proof.
  intros c n Hwf Hin. revert Hwf.
  induction Hin as [next children piece v E|next children piece v _ IH
                   |next children piece v _ IH]; intros Hwf.
  - subst n. apply Hwf.
  - apply IH, Hwf.
  - apply IH, Hwf.
Qed.

Lemma inside_table : forall c n,
  inside n (Node NULL c "" 42) -> n = Node NULL c "" 42 \/ inside n c.
Proof.
  intros c n H. inversion H; subst; auto.
  now apply inside_null in H1.
Qed.

Lemma wf_member : forall c i a,
  wf c -> nth_error (siblings c) i = Some a ->
  Piece a <> "" /\ In (head (Piece a)) (heads c).
Proof.
  induction c as [|n IHn ch _ p v]; intros i a Hwf H.
  - now destruct i.
  - destruct i as [|i]; simpl in H.
    + injection H as <-. split; [apply Hwf|now left].
    + destruct (IHn i a) as (Hp & Hin); [apply Hwf|assumption|].
      split; [assumption|now right].
Qed.

Lemma wf_distinct : forall c i j a b,
  wf c -> i <> j ->
  nth_error (siblings c) i = Some a ->
  nth_error (siblings c) j = Some b ->
  head (Piece a) <> head (Piece b).
Proof.
  induction c as [|n IHn ch _ p v]; intros i j a b Hwf Hij Ha Hb.
  - now destruct i.
  - destruct Hwf as (Hp & Hnin & Hwn & _).
    destruct i as [|i], j as [|j]; simpl in Ha, Hb.
    + congruence.
    + injection Ha as <-. simpl. intros E. apply Hnin. rewrite E.
      now apply (wf_member n j b).
    + injection Hb as <-. simpl. intros E. apply Hnin. rewrite <- E.
      now apply (wf_member n i a).
    + apply (IHn i j); auto.
Qed.

Lemma get_binds : forall c k,
  symtab_get c k <> 0 -> binds c k (symtab_get c k).
Proof.
  induction c as [|n IHn ch IHch p v]; intros k H; [now elim H|].
  scan_on p k as m e s S Hp Hk Hst. subst k.
  destruct e as [|ea e].
  - rewrite append_empty_r in Hp. subst m. rewrite get_hit in *.
    destruct (at_end s && negb (v =? 0)) eqn:C.
    + apply andb_prop in C. destruct C as (Cs & _).
      destruct s; [|discriminate]. rewrite append_empty_r.
      now constructor.
    + apply binds_children. now apply IHch.
  - rewrite Hp in *. rewrite get_miss in * by (auto; discriminate).
    apply binds_next. now apply IHn.
Qed.

(** ** [symtab_complete] inside a piece *)

(** When the inner loop stops inside a piece after at least one
    character, the last branch writes the rest of the piece at
    [search], whatever [search] points to: the end of the buffer or a
    character that differs. *)
Lemma complete_inside_piece : forall n c m e s v,
  m <> "" -> e <> "" -> stops e s ->
  symtab_complete (Node n c (m ++ e) v) (m ++ s) = (m ++ e, true).
Proof.
  intros n c m e s v Hm He Hst. simpl. rewrite scan_unique by assumption.
  destruct e; [congruence|]. destruct m; [congruence|reflexivity].
Qed.

(** ** The scenarios of the interface description *)

Example scenario_cat_car_card :
  exists tab,
    run [Put "cat" 1; Put "car" 2; Put "card" 3] (symtab_create 0) =
      Some tab /\
    symtab_get tab "cat" = 1 /\ symtab_get tab "car" = 2 /\
    symtab_get tab "card" = 3 /\ symtab_get tab "ca" = 0 /\
    symtab_get tab "care" = 0 /\
    exists tab',
      symtab_remove tab "car" = Returns tab' 2 /\
      symtab_get tab' "car" = 0 /\ symtab_get tab' "card" = 3.
Proof.
  eexists. split; [reflexivity|]. repeat split.
  eexists. split; [reflexivity|]. split; reflexivity.
Qed.

Example scenario_cat_alone :
  run [Put "cat" 1; Remove "cat"] (symtab_create 0) =
    Some (symtab_create 0).
Proof. reflexivity. Qed.

Example scenario_complete :
  exists tab,
    run [Put "hello" 1; Put "help" 2] (symtab_create 0) = Some tab /\
    symtab_complete tab "he" = ("hel", true) /\
    symtab_complete tab "help" = ("help", false).
Proof. eexists. split; [reflexivity|]. split; reflexivity. Qed.

(** ** Stored keys and lookups agree *)

Lemma binds_key : forall c k w,
  wf c -> binds c k w -> k <> "" /\ In (head k) (heads c) /\ w <> 0.
Proof.
  intros c k w Hwf Hb. revert Hwf.
  induction Hb as [n ch p v Hv|n ch p v rest w _ IH|n ch p v k w _ IH];
    intros (Hp & Hnin & Hwn & Hwc).
  - repeat split; auto. now left.
  - destruct (IH Hwc) as (_ & _ & Hw). repeat split; auto.
    + destruct p; [congruence|discriminate].
    + left. simpl. now rewrite head_append.
  - destruct (IH Hwn) as (Hk & Hin & Hw). repeat split; auto. now right.
Qed.

Lemma binds_get : forall c k w,
  wf c -> binds c k w -> symtab_get c k = w.
Proof.
  intros c k w Hwf Hb. revert Hwf.
  induction Hb as [n ch p v Hv|n ch p v rest w Hb IH|n ch p v k w Hb IH];
    intros (Hp & Hnin & Hwn & Hwc).
  - rewrite <- (append_empty_r p) at 2. rewrite get_hit. cbn [at_end andb].
    destruct (Z.eqb_spec v 0); [contradiction|reflexivity].
  - destruct (binds_key _ _ _ Hwc Hb) as (Hrest & _).
    rewrite get_hit. destruct rest; [congruence|]. now apply IH.
  - destruct (binds_key _ _ _ Hwn Hb) as (Hk & Hin & _).
    scan_on p k as m e s S Hp' Hk' Hst. destruct e as [|ea e].
    + rewrite append_empty_r in Hp'. subst m k.
      rewrite head_append in Hin by assumption. contradiction.
    + subst k. rewrite Hp'. rewrite get_miss by (auto; discriminate).
      now apply IH.
Qed.

(** On a table, the nodes that hold a value are what [symtab_get]
    finds. *)
Lemma stored_iff_found : forall tab k v,
  table tab -> k <> "" ->
  (binds tab k v <-> symtab_get tab k = v /\ v <> 0).
Proof.
  intros tab k v (c & -> & Hwf & _) Hk. rewrite get_root.
  destruct (at_end k) eqn:Ek; [destruct k; [congruence|discriminate]|].
  split.
  - intros Hb. inversion Hb as [| ? ? ? ? rest ? H1 | ? ? ? ? ? ? H1]; subst.
    + congruence.
    + simpl. split; [now apply binds_get|].
      now apply (binds_key c rest v).
    + inversion H1.
  - intros (<- & Hv). change k with ("" ++ k).
    apply binds_children. now apply get_binds.
Qed.

(** ** The properties of the interface *)

Ltac no_binding :=
  repeat match goal with
         | H : binds _ _ _ |- _ => inversion H; clear H; subst
         | H : (_ ++ _)%string = _ |- _ =>
             simpl in H; try discriminate H; subst
         end.

Ltac by_calls cs :=
  exists 0, cs; split; [repeat constructor; discriminate | reflexivity].

(** C1, as the code has it. A key that is not empty and that no [put]
    of the history inserted is absent: [symtab_get] returns 0. The root
    that [symtab_create] makes has the empty piece, no children and the
    value 42 in its value field, so the empty key is never absent:
    [symtab_get] returns 42 for it on every table of the history. *)
Theorem get_never_inserted : forall capacity calls tab k,
  Forall within_contract calls ->
  run calls (symtab_create capacity) = Some tab ->
  (forall v, ~ In (Put k v) calls) ->
  symtab_create capacity = Node NULL NULL "" 42 /\
  symtab_get tab k = if at_end k then 42 else 0.
Proof.
  intros capacity calls tab k Hc H Hnin. split; [reflexivity|].
  destruct k as [|a k]; cbn [at_end].
  - destruct (run_table calls _ tab (table_create capacity) Hc H)
      as (c & -> & _).
    reflexivity.
  - apply (run_absent calls (symtab_create capacity) tab); auto.
    + apply table_create.
    + discriminate.
Qed.

Lemma get_never_inserted_witness :
  symtab_create 0 = Node NULL NULL "" 42 /\
  symtab_get (Node NULL (Node NULL NULL "cat" 1) "" 42) "car" = 0.
Proof.
  apply (get_never_inserted 0 [Put "cat" 1]
           (Node NULL (Node NULL NULL "cat" 1) "" 42) "car").
  - repeat constructor; discriminate.
  - reflexivity.
  - intros v [H|[]]. discriminate.
Defined.

(** C1 as it is written fails on a new table: the lookup of the empty
    string returns the 42 that [symtab_create] stores in the root. *)
Lemma get_empty_key_on_new_table :
  symtab_get (symtab_create 0) "" = 42 /\
  symtab_get (symtab_create 0) "" <> 0 /\
  _is_leaf (symtab_create 0) = true.
Proof. repeat split. discriminate. Qed.

(** C2. On every reachable table, [put] of a key that is not empty with
    a value that is not zero returns, and [get] of that key then
    returns that value. *)
Theorem put_then_get : forall tab k v,
  reachable tab -> k <> "" -> v <> 0 ->
  exists tab' old,
    symtab_put tab k v = Returns tab' old /\ symtab_get tab' k = v.
Proof.
  intros tab k v Hr Hk Hv.
  destruct (put_table tab k v (reachable_table tab Hr) Hk Hv)
    as (tab' & E & _ & G & _).
  now exists tab', (symtab_get tab k).
Qed.

Lemma put_then_get_witness :
  exists tab' old,
    symtab_put (Node NULL (Node NULL NULL "cat" 1) "" 42) "car" 2 =
      Returns tab' old /\
    symtab_get tab' "car" = 2.
Proof.
  apply (put_then_get (Node NULL (Node NULL NULL "cat" 1) "" 42) "car" 2).
  - by_calls [Put "cat" 1].
  - discriminate.
  - discriminate.
Defined.

(** C3 fails on the code. With only "hello" stored, the buffer "help"
    leaves the piece "hello" at 'p' against 'l', strictly inside the
    piece; [symtab_complete] overwrites the buffer from there with the
    rest of the piece and reports a modification. *)
Theorem complete_overwrites_on_mismatch :
  run [Put "hello" 1] (symtab_create 0) =
    Some (Node NULL (Node NULL NULL "hello" 1) "" 42) /\
  scan "hello" "help" = ("hel", "lo", "p") /\
  symtab_complete (Node NULL (Node NULL NULL "hello" 1) "" 42) "help" =
    ("hello", true).
Proof. repeat split. Qed.

(** C4. After any sequence of [put] calls (key not empty, value not
    zero) and [remove] calls (key not empty) on a new table, every call
    has returned, and no node without a value has exactly one child: it
    has none, or two or more. *)
Theorem no_single_child_without_value : forall capacity calls,
  Forall put_or_remove calls ->
  exists tab,
    run calls (symtab_create capacity) = Some tab /\
    forall n, inside n tab -> _is_leaf n = false ->
      _has_exactly_one_child n = false /\
      (length (siblings (Children n)) = 0 \/
       2 <= length (siblings (Children n)))%nat.
Proof.
  intros capacity calls Hc.
  destruct (run_put_or_remove calls _ (table_create capacity) Hc)
    as (tab & R & c & -> & Hwf & Hco).
  exists (Node NULL c "" 42). split; [assumption|].
  intros n Hin Hleaf.
  assert (Hv : Value n = 0).
  { unfold _is_leaf in Hleaf. apply negb_false_iff in Hleaf.
    now apply Z.eqb_eq. }
  assert (H2 : (2 <= length (siblings (Children n)))%nat).
  { destruct (inside_table c n Hin) as [->|Hin'].
    - discriminate.
    - now apply (compact_inside c n). }
  split; [|now right].
  destruct n as [|nn [|[|? ? ? ?] ? ? ?] np nv]; simpl in H2; try lia.
  reflexivity.
Qed.

Lemma no_single_child_without_value_witness :
  exists tab,
    run [Put "cat" 1; Put "car" 2; Remove "cat"] (symtab_create 0) =
      Some tab /\
    forall n, inside n tab -> _is_leaf n = false ->
      _has_exactly_one_child n = false /\
      (length (siblings (Children n)) = 0 \/
       2 <= length (siblings (Children n)))%nat.
Proof.
  apply (no_single_child_without_value 0
           [Put "cat" 1; Put "car" 2; Remove "cat"]).
  repeat constructor; discriminate.
Defined.

(** C5, as the code has it. On every reachable table, for every key
    that is not empty and every value that is not zero, [put] and then
    [remove] of the key return, [remove] returns the value, and [get] of
    the key then returns 0. *)
Theorem put_then_remove : forall tab k v,
  reachable tab -> k <> "" -> v <> 0 ->
  exists tab1 old tab2,
    symtab_put tab k v = Returns tab1 old /\
    symtab_remove tab1 k = Returns tab2 v /\
    symtab_get tab2 k = 0.
Proof.
  intros tab k v Hr Hk Hv.
  destruct (put_table tab k v (reachable_table tab Hr) Hk Hv)
    as (tab1 & E1 & T1 & G1 & _).
  destruct (remove_table tab1 k T1 Hk) as (tab2 & _ & E2 & _ & G2).
  exists tab1, (symtab_get tab k), tab2. repeat split; auto.
  - now rewrite E2, G1.
  - now rewrite G2, String.eqb_refl.
Qed.

Lemma put_then_remove_witness :
  exists tab1 old tab2,
    symtab_put (Node NULL (Node NULL NULL "cat" 1) "" 42) "car" 2 =
      Returns tab1 old /\
    symtab_remove tab1 "car" = Returns tab2 2 /\
    symtab_get tab2 "car" = 0.
Proof.
  apply (put_then_remove
           (Node NULL (Node NULL NULL "cat" 1) "" 42) "car" 2).
  - by_calls [Put "cat" 1].
  - discriminate.
  - discriminate.
Defined.

(** C5 as it is written, for all keys, fails at the empty key: [put]
    overwrites the value of the root, and [remove] then runs
    [_entry_remove] for the root, whose [parent] is the null pointer. *)
Lemma put_then_remove_empty_key :
  symtab_put (symtab_create 0) "" 7 = Returns (Node NULL NULL "" 7) 42 /\
  symtab_remove (Node NULL NULL "" 7) "" = Null_dereference /\
  ~ (exists tab2, symtab_remove (Node NULL NULL "" 7) "" = Returns tab2 7).
Proof. repeat split. intros (tab2 & H). discriminate. Qed.

(** C6. On every reachable table ([put] within its contract; [remove],
    [get] and [complete] with any argument), two different children of
    a node have pieces that start with different characters. *)
Theorem sibling_first_characters_differ : forall tab n i j a b,
  reachable tab -> inside n tab -> i <> j ->
  nth_error (siblings (Children n)) i = Some a ->
  nth_error (siblings (Children n)) j = Some b ->
  exists x y,
    head (Piece a) = Some x /\ head (Piece b) = Some y /\ x <> y.
Proof.
  intros tab n i j a b Hr Hin Hij Ha Hb.
  destruct (reachable_table tab Hr) as (c & -> & Hwf & _).
  assert (Hwc : wf (Children n)).
  { destruct (inside_table c n Hin) as [->|Hin']; [assumption|].
    now apply (wf_inside c n). }
  destruct (wf_member _ _ _ Hwc Ha) as (Hpa & _).
  destruct (wf_member _ _ _ Hwc Hb) as (Hpb & _).
  pose proof (wf_distinct _ _ _ _ _ Hwc Hij Ha Hb) as Hd.
  destruct (Piece a) as [|x pa]; [congruence|].
  destruct (Piece b) as [|y pb]; [congruence|].
  exists x, y. repeat split. intros ->. now apply Hd.
Qed.

Lemma sibling_first_characters_differ_witness :
  exists x y,
    head (Piece (Node (Node NULL NULL "dog" 2) NULL "cat" 1)) = Some x /\
    head (Piece (Node NULL NULL "dog" 2)) = Some y /\ x <> y.
Proof.
  apply (sibling_first_characters_differ
           (Node NULL (Node (Node NULL NULL "dog" 2) NULL "cat" 1) "" 42)
           (Node NULL (Node (Node NULL NULL "dog" 2) NULL "cat" 1) "" 42)
           0%nat 1%nat).
  - by_calls [Put "cat" 1; Put "dog" 2].
  - eapply inside_here. reflexivity.
  - discriminate.
  - reflexivity.
  - reflexivity.
Defined.

(** C7. On every reachable table, for a key that is not empty and two
    values that are not zero, the second [put] of the key returns the
    first value, [get] then returns the second value, and the second
    [put] replaced the value of one node and nothing else: every piece
    and every link, the children of that node among them, is as before. *)
Theorem put_overwrite : forall tab k v1 v2,
  reachable tab -> k <> "" -> v1 <> 0 -> v2 <> 0 ->
  exists tab1 old tab2,
    symtab_put tab k v1 = Returns tab1 old /\
    symtab_put tab1 k v2 = Returns tab2 v1 /\
    symtab_get tab2 k = v2 /\
    revalued tab1 tab2.
Proof.
  intros tab k v1 v2 Hr Hk Hv1 Hv2.
  destruct (put_table tab k v1 (reachable_table tab Hr) Hk Hv1)
    as (tab1 & E1 & T1 & G1 & _).
  destruct (put_table tab1 k v2 T1 Hk Hv2) as (tab2 & E2 & _ & G2 & _).
  exists tab1, (symtab_get tab k), tab2. rewrite G1 in E2.
  repeat split; auto.
  rewrite symtab_put_eq in E2 by assumption. injection E2 as <- _.
  destruct T1 as (c & -> & Hwf & _).
  rewrite get_root in G1.
  destruct (at_end k) eqn:Ek; [destruct k; [congruence|discriminate]|].
  rewrite put_loop_root by assumption.
  destruct c as [|cn cc cp cv]; [now elim Hv1|].
  cbn [fst]. apply revalued_children.
  apply put_loop_revalued; auto. now rewrite G1.
Qed.

Lemma put_overwrite_witness :
  exists tab1 old tab2,
    symtab_put (Node NULL (Node NULL NULL "cat" 1) "" 42) "car" 2 =
      Returns tab1 old /\
    symtab_put tab1 "car" 3 = Returns tab2 2 /\
    symtab_get tab2 "car" = 3 /\
    revalued tab1 tab2.
Proof.
  apply (put_overwrite
           (Node NULL (Node NULL NULL "cat" 1) "" 42) "car" 2 3).
  - by_calls [Put "cat" 1].
  - discriminate.
  - discriminate.
  - discriminate.
Defined.

(** C8. When no node of the table holds a value for the key, [remove]
    returns 0 and leaves the very same structure. It holds for every
    structure and every key, hence for every reachable table and every
    key that is not empty. *)
Theorem remove_absent_key : forall tab k,
  (forall v, ~ binds tab k v) -> symtab_remove tab k = Returns tab 0.
Proof.
  intros tab k Hnb.
  assert (Hget : symtab_get tab k = 0).
  { destruct (Z.eq_dec (symtab_get tab k) 0) as [E|N]; [assumption|].
    elim (Hnb (symtab_get tab k)). now apply get_binds. }
  unfold symtab_remove. now rewrite (remove_loop_absent tab k Hget).
Qed.

Lemma remove_absent_key_witness :
  symtab_remove (Node NULL (Node NULL NULL "cat" 1) "" 42) "dog" =
  Returns (Node NULL (Node NULL NULL "cat" 1) "" 42) 0.
Proof.
  apply (remove_absent_key
           (Node NULL (Node NULL NULL "cat" 1) "" 42) "dog").
  intros v H. no_binding.
Defined.

(** C9. [put] with the value 0 stops at the assertion, with the table
    as it was when [put] was called; with any other value the assertion
    holds and [put] returns. *)
Theorem put_zero_asserts : forall tab k v,
  (v = 0 -> symtab_put tab k v = Assertion_fails tab) /\
  (v <> 0 -> exists tab' old, symtab_put tab k v = Returns tab' old).
Proof.
  intros tab k v. split.
  - intros ->. reflexivity.
  - intros Hv. rewrite symtab_put_eq by assumption. eauto.
Qed.

Lemma put_zero_asserts_witness :
  symtab_put (symtab_create 0) "cat" 0 = Assertion_fails (symtab_create 0) /\
  exists tab' old, symtab_put (symtab_create 0) "cat" 1 = Returns tab' old.
Proof.
  split.
  - apply (proj1 (put_zero_asserts (symtab_create 0) "cat" 0)).
    reflexivity.
  - apply (proj2 (put_zero_asserts (symtab_create 0) "cat" 1)).
    discriminate.
Defined.

(** C10. On every reachable table, for every key that is not empty,
    [_entry_remove] never runs for an entry of the chain the caller
    passes, the root, where [parent] is null: the flag of [remove_loop]
    is false, no null pointer is read or written, and [symtab_remove]
    returns. *)
Theorem remove_has_parent : forall tab k,
  reachable tab -> k <> "" ->
  exists tab' val,
    remove_loop tab k = (tab', val, false) /\
    symtab_remove tab k = Returns tab' val.
Proof.
  intros tab k Hr Hk.
  destruct (remove_table tab k (reachable_table tab Hr) Hk)
    as (tab' & L & E & _).
  now exists tab', (symtab_get tab k).
Qed.

Lemma remove_has_parent_witness :
  exists tab' val,
    remove_loop (Node NULL (Node NULL NULL "cat" 1) "" 42) "cat" =
      (tab', val, false) /\
    symtab_remove (Node NULL (Node NULL NULL "cat" 1) "" 42) "cat" =
      Returns tab' val.
Proof.
  apply (remove_has_parent
           (Node NULL (Node NULL NULL "cat" 1) "" 42) "cat").
  - by_calls [Put "cat" 1].
  - discriminate.
Defined.

(** ** Further properties: [symtab_put], [symtab_remove], [symtab_get] *)

(** X1. On every reachable table, [put] of a key that is not empty
    returns what [get] of that key returned before the call: the value
    it replaces, or 0 when the key was absent. *)
Theorem put_returns_previous : forall tab k v,
  reachable tab -> k <> "" -> v <> 0 ->
  exists tab', symtab_put tab k v = Returns tab' (symtab_get tab k).
Proof.
  intros tab k v Hr Hk Hv.
  destruct (put_table tab k v (reachable_table tab Hr) Hk Hv)
    as (tab' & E & _).
  now exists tab'.
Qed.

Lemma put_returns_previous_witness :
  exists tab',
    symtab_put (Node NULL (Node NULL NULL "cat" 1) "" 42) "cat" 5 =
    Returns tab' (symtab_get (Node NULL (Node NULL NULL "cat" 1) "" 42) "cat").
Proof.
  apply (put_returns_previous
           (Node NULL (Node NULL NULL "cat" 1) "" 42) "cat" 5).
  - by_calls [Put "cat" 1].
  - discriminate.
  - discriminate.
Defined.

(** X2. On every reachable table, [put] of a key changes the lookup of
    no other key, whatever cutting of pieces it does. *)
Theorem put_keeps_other_keys : forall tab k v k',
  reachable tab -> k <> "" -> v <> 0 -> k' <> k ->
  exists tab' old,
    symtab_put tab k v = Returns tab' old /\
    symtab_get tab' k' = symtab_get tab k'.
Proof.
  intros tab k v k' Hr Hk Hv Hne.
  destruct (put_table tab k v (reachable_table tab Hr) Hk Hv)
    as (tab' & E & _ & _ & F).
  exists tab', (symtab_get tab k). split; [assumption|now apply F].
Qed.

Lemma put_keeps_other_keys_witness :
  exists tab' old,
    symtab_put (Node NULL (Node NULL NULL "cat" 1) "" 42) "car" 2 =
      Returns tab' old /\
    symtab_get tab' "cat" =
    symtab_get (Node NULL (Node NULL NULL "cat" 1) "" 42) "cat".
Proof.
  apply (put_keeps_other_keys
           (Node NULL (Node NULL NULL "cat" 1) "" 42) "car" 2 "cat").
  - by_calls [Put "cat" 1].
  - discriminate.
  - discriminate.
  - discriminate.
Defined.

(** X3. On every reachable table, [remove] of a key that is not empty
    returns what [get] of that key returned before the call, and [get]
    of that key returns 0 afterwards. *)
Theorem remove_returns_stored : forall tab k,
  reachable tab -> k <> "" ->
  exists tab',
    symtab_remove tab k = Returns tab' (symtab_get tab k) /\
    symtab_get tab' k = 0.
Proof.
  intros tab k Hr Hk.
  destruct (remove_table tab k (reachable_table tab Hr) Hk)
    as (tab' & _ & E & _ & F).
  exists tab'. split; [assumption|].
  now rewrite F, String.eqb_refl.
Qed.

Lemma remove_returns_stored_witness :
  exists tab',
    symtab_remove (Node NULL (Node NULL NULL "cat" 1) "" 42) "cat" =
      Returns tab'
        (symtab_get (Node NULL (Node NULL NULL "cat" 1) "" 42) "cat") /\
    symtab_get tab' "cat" = 0.
Proof.
  apply (remove_returns_stored
           (Node NULL (Node NULL NULL "cat" 1) "" 42) "cat").
  - by_calls [Put "cat" 1].
  - discriminate.
Defined.

(** X4. On every reachable table, [remove] of a key changes the lookup
    of no other key, whatever unlinking and merging it does. *)
Theorem remove_keeps_other_keys : forall tab k k',
  reachable tab -> k <> "" -> k' <> k ->
  exists tab' val,
    symtab_remove tab k = Returns tab' val /\
    symtab_get tab' k' = symtab_get tab k'.
Proof.
  intros tab k k' Hr Hk Hne.
  destruct (remove_table tab k (reachable_table tab Hr) Hk)
    as (tab' & _ & E & _ & F).
  exists tab', (symtab_get tab k). split; [assumption|].
  rewrite F. destruct (String.eqb_spec k' k); [contradiction|reflexivity].
Qed.

Lemma remove_keeps_other_keys_witness :
  exists tab' val,
    symtab_remove
      (Node NULL (Node NULL (Node (Node NULL NULL "r" 2) NULL "t" 1) "ca" 0)
         "" 42) "cat" = Returns tab' val /\
    symtab_get tab' "car" =
    symtab_get
      (Node NULL (Node NULL (Node (Node NULL NULL "r" 2) NULL "t" 1) "ca" 0)
         "" 42) "car".
Proof.
  apply (remove_keeps_other_keys
           (Node NULL
              (Node NULL (Node (Node NULL NULL "r" 2) NULL "t" 1) "ca" 0)
              "" 42) "cat" "car").
  - by_calls [Put "cat" 1; Put "car" 2].
  - discriminate.
  - discriminate.
Defined.

Lemma run_map : forall calls tab tab' m,
  table tab -> Forall within_contract calls ->
  run calls tab = Some tab' ->
  (forall k, k <> "" -> symtab_get tab k = m k) ->
  forall k, k <> "" -> symtab_get tab' k = map_run calls m k.
Proof.
  induction calls as [|c calls IH]; intros tab tab' m Ht Hc H Hm; simpl in H.
  - injection H as <-. exact Hm.
  - inversion Hc as [|? ? Hc1 Hc2]; subst.
    destruct (after tab c) as [t|] eqn:E; [|discriminate].
    simpl. apply (IH t tab'); auto.
    + now apply (after_table tab c t).
    + intros k Hk. destruct c as [k1 v1|k1|k1|b]; simpl in E |- *.
      * destruct Hc1 as (Hk1 & Hv1).
        destruct (put_table tab k1 v1 Ht Hk1 Hv1)
          as (t' & E' & _ & G & F).
        rewrite E' in E. injection E as <-.
        destruct (String.eqb_spec k k1) as [->|Hne]; [assumption|].
        rewrite F by assumption. now apply Hm.
      * destruct k1 as [|a k1].
        -- now rewrite remove_table_empty in E.
        -- destruct (remove_table tab (String a k1) Ht ltac:(discriminate))
             as (t' & _ & E' & _ & F).
           rewrite E' in E. injection E as <-. rewrite F.
           destruct (k =? String a k1)%string; [reflexivity|now apply Hm].
      * injection E as <-. now apply Hm.
      * injection E as <-. now apply Hm.
Qed.

(** X5. The table refines a map. After any history of calls within
    their contract that has returned, [get] of a key that is not empty
    returns what the map built by the same [put] and [remove] calls
    holds for it, 0 standing for no binding. *)
Theorem history_agrees_with_map : forall capacity calls tab k,
  Forall within_contract calls ->
  run calls (symtab_create capacity) = Some tab ->
  k <> "" ->
  symtab_get tab k = map_run calls (fun _ => 0) k.
Proof.
  intros capacity calls tab k Hc H Hk.
  apply (run_map calls (symtab_create capacity) tab); auto.
  - apply table_create.
  - intros x Hx. destruct x; [congruence|reflexivity].
Qed.

Lemma history_agrees_with_map_witness :
  symtab_get
    (Node NULL (Node NULL NULL "car" 2) "" 42) "car" =
  map_run [Put "cat" 1; Put "car" 2; Remove "cat"] (fun _ => 0) "car".
Proof.
  apply (history_agrees_with_map 0
           [Put "cat" 1; Put "car" 2; Remove "cat"]
           (Node NULL (Node NULL NULL "car" 2) "" 42) "car").
  - repeat constructor; discriminate.
  - reflexivity.
  - discriminate.
Defined.



(** X7. On every reachable table, [put] of the empty key with a value
    that is not zero returns 42 and overwrites the value of the root;
    nothing below the root changes. *)
Theorem put_empty_key_overwrites_root : forall tab v,
  reachable tab -> v <> 0 ->
  symtab_put tab "" v = Returns (Node NULL (Children tab) "" v) 42.
Proof.
  intros tab v Hr Hv. destruct (reachable_table tab Hr) as (c & -> & _).
  now rewrite symtab_put_eq.
Qed.

Lemma put_empty_key_overwrites_root_witness :
  symtab_put (Node NULL (Node NULL NULL "cat" 1) "" 42) "" 7 =
  Returns
    (Node NULL (Children (Node NULL (Node NULL NULL "cat" 1) "" 42)) "" 7)
    42.
Proof.
  apply (put_empty_key_overwrites_root
           (Node NULL (Node NULL NULL "cat" 1) "" 42) 7).
  - by_calls [Put "cat" 1].
  - discriminate.
Defined.

Lemma remove_parent_compact : forall n c p v,
  (v = 0 -> (2 <= length (siblings c))%nat) ->
  _entry_remove_parent (Node n c p v) = Node n c p v.
Proof.
  intros n c p v H. unfold _entry_remove_parent, _is_leaf. cbn [Value].
  destruct (Z.eqb_spec v 0) as [E|_]; [|reflexivity].
  specialize (H E).
  destruct c as [|[|? ? ? ?] ? ? ?]; simpl in H; try lia; reflexivity.
Qed.

Lemma remove_loop_leaf : forall label v,
  v <> 0 ->
  remove_loop (_entry_new label v) label = (NULL, v, true).
Proof.
  intros label v Hv. unfold _entry_new. simpl.
  rewrite <- (append_empty_r label) at 2. rewrite scan_self.
  unfold _is_leaf. cbn [at_end andb Value].
  destruct (Z.eqb_spec v 0); [contradiction|reflexivity].
Qed.

(** Removing the key that was just put undoes what [put] built, in a
    chain where the key was absent. *)
Lemma put_remove_loop : forall c k v,
  compact c -> is_null c = false -> k <> "" -> v <> 0 ->
  symtab_get c k = 0 ->
  exists removed, remove_loop (fst (put_loop c k v)) k = (c, v, removed).
Proof.
  induction c as [|n IHn ch IHch p v0]; intros k v Hco Hc Hk0 Hv Hget;
    [discriminate|].
  destruct Hco as (Hv0 & Hcn & Hcc).
  assert (Hvb : negb (v =? 0) = true)
    by (apply negb_true_iff; now apply Z.eqb_neq).
  unfold put_loop; fold put_loop.
  unfold symtab_get in Hget; fold symtab_get in Hget.
  scan_on p k as m e s S Hp Hk Hst.
  destruct e as [|ea e]; fields.
  - rewrite append_empty_r in Hp. subst m.
    destruct s as [|sa s]; fields.
    + (* the key ends at a node that holds no value *)
      rewrite append_empty_r in Hk. subst k.
      unfold _is_leaf in Hget. cbn [Value] in Hget.
      destruct (Z.eqb_spec v0 0) as [->|N]; [|now elim N].
      exists true. unfold remove_loop.
      rewrite <- (append_empty_r p) at 2. rewrite scan_self.
      unfold _is_leaf. cbn [at_end andb Value]. rewrite Hvb.
      specialize (Hv0 eq_refl).
      destruct ch as [|[|? ? ? ?] ? ? ?]; simpl in Hv0; try lia.
      reflexivity.
    + assert (Hg : symtab_get ch (String sa s) = 0) by exact Hget.
      destruct ch as [|cn cc cp cv]; fields.
      * exists false. unfold remove_loop; fold remove_loop.
        rewrite S. cbn [at_end andb].
        rewrite remove_loop_leaf by assumption.
        unfold _entry_remove_parent. fields.
        now rewrite andb_false_r.
      * destruct (IHch (String sa s) v Hcc eq_refl ltac:(discriminate) Hv Hg)
          as (r & R).
        destruct (put_loop (Node cn cc cp cv) (String sa s) v) as [c' val].
        cbn [fst] in *. exists false.
        unfold remove_loop; fold remove_loop. rewrite S.
        cbn [at_end andb]. rewrite R.
        rewrite remove_parent_compact by assumption.
        now destruct r.
  - destruct m as [|ma m]; fields.
    + simpl in Hk. subst s.
      destruct n as [|nn nc np nv]; fields.
      * exists true. unfold remove_loop; fold remove_loop. rewrite S.
        cbn [at_end]. now rewrite remove_loop_leaf.
      * destruct (IHn k v Hcn eq_refl Hk0 Hv Hget) as (r & R).
        destruct (put_loop (Node nn nc np nv) k v) as [n' val].
        cbn [fst] in *. exists r.
        unfold remove_loop; fold remove_loop. rewrite S.
        cbn [at_end]. now rewrite R.
    + destruct s as [|sa s]; fields.
      * (* the key ends inside the piece *)
        rewrite append_empty_r in Hk. subst k. exists true.
        unfold remove_loop.
        rewrite <- (append_empty_r (String ma m)) at 2. rewrite scan_self.
        unfold _is_leaf. cbn [at_end andb Value]. rewrite Hvb.
        unfold _entry_remove_entry. fields. now rewrite Hp.
      * (* the key leaves the piece *)
        subst k. exists false. unfold remove_loop; fold remove_loop.
        rewrite scan_self. cbn [at_end andb].
        rewrite (scan_stops _ _ Hst). cbn [at_end].
        rewrite remove_loop_leaf by assumption.
        unfold _entry_remove_parent. fields. now rewrite Hp.
Qed.

(** X8. On every reachable table, when a key that is not empty is
    absent, [put] of the key followed by [remove] of the key returns the
    value that was put and leaves the very structure there was before
    the two calls: every cut is undone by a merge. *)
Theorem put_remove_restores : forall tab k v,
  reachable tab -> k <> "" -> v <> 0 -> symtab_get tab k = 0 ->
  exists tab1,
    symtab_put tab k v = Returns tab1 0 /\
    symtab_remove tab1 k = Returns tab v.
Proof.
  intros tab k v Hr Hk Hv Hget.
  destruct (reachable_table tab Hr) as (c & -> & Hwf & Hco).
  rewrite symtab_put_eq by assumption.
  rewrite get_root in Hget.
  destruct (at_end k) eqn:Ek; [discriminate|].
  rewrite put_loop_root by assumption.
  destruct c as [|cn cc cp cv].
  - eexists. split; [reflexivity|]. cbn [fst].
    unfold symtab_remove. rewrite remove_loop_root by assumption.
    now rewrite remove_loop_leaf.
  - set (c := Node cn cc cp cv) in *.
    destruct (put_remove_loop c k v Hco eq_refl Hk Hv Hget) as (r & R).
    exists (Node NULL (fst (put_loop c k v)) "" 42). split.
    + cbn [fst snd]. now rewrite (put_loop_val c k v Hwf Hk), Hget.
    + unfold symtab_remove. rewrite remove_loop_root by assumption.
      now rewrite R.
Qed.

Lemma put_remove_restores_witness :
  exists tab1,
    symtab_put (Node NULL (Node NULL NULL "hello" 1) "" 42) "help" 2 =
      Returns tab1 0 /\
    symtab_remove tab1 "help" =
      Returns (Node NULL (Node NULL NULL "hello" 1) "" 42) 2.
Proof.
  apply (put_remove_restores
           (Node NULL (Node NULL NULL "hello" 1) "" 42) "help" 2).
  - by_calls [Put "hello" 1].
  - discriminate.
  - discriminate.
  - reflexivity.
Defined.

(** X9. On every reachable table, a second [remove] of the same key
    returns 0 and leaves the table as the first one left it. *)
Theorem remove_twice : forall tab k,
  reachable tab -> k <> "" ->
  exists tab1 val,
    symtab_remove tab k = Returns tab1 val /\
    symtab_remove tab1 k = Returns tab1 0.
Proof.
  intros tab k Hr Hk.
  destruct (remove_table tab k (reachable_table tab Hr) Hk)
    as (tab1 & _ & E & _ & F).
  exists tab1, (symtab_get tab k). split; [assumption|].
  unfold symtab_remove. rewrite remove_loop_absent; [reflexivity|].
  now rewrite F, String.eqb_refl.
Qed.

Lemma remove_twice_witness :
  exists tab1 val,
    symtab_remove (Node NULL (Node NULL NULL "cat" 1) "" 42) "cat" =
      Returns tab1 val /\
    symtab_remove tab1 "cat" = Returns tab1 0.
Proof.
  apply (remove_twice (Node NULL (Node NULL NULL "cat" 1) "" 42) "cat").
  - by_calls [Put "cat" 1].
  - discriminate.
Defined.

Lemma wf_piece : forall c n, wf c -> inside n c -> Piece n <> "".
Proof.
  intros c n Hwf Hin. revert Hwf.
  induction Hin as [next children piece v E|next children piece v _ IH
                   |next children piece v _ IH]; intros Hwf.
  - subst n. apply Hwf.
  - apply IH, Hwf.
  - apply IH, Hwf.
Qed.

(** X10. On every reachable table the root is as [symtab_create] made
    it: no sibling, the empty piece (the string literal is never
    reallocated by a merge) and the value 42; and no node below the
    root has an empty piece. *)
Theorem root_is_kept : forall tab,
  reachable tab ->
  Next tab = NULL /\ Piece tab = "" /\ Value tab = 42 /\
  forall n, inside n (Children tab) -> Piece n <> "".
Proof.
  intros tab Hr. destruct (reachable_table tab Hr) as (c & -> & Hwf & _).
  repeat split. intros n Hin. now apply (wf_piece c n).
Qed.

Lemma root_is_kept_witness :
  Next (Node NULL (Node NULL NULL "cat" 1) "" 42) = NULL /\
  Piece (Node NULL (Node NULL NULL "cat" 1) "" 42) = "" /\
  Value (Node NULL (Node NULL NULL "cat" 1) "" 42) = 42 /\
  forall n,
    inside n (Children (Node NULL (Node NULL NULL "cat" 1) "" 42)) ->
    Piece n <> "".
Proof.
  apply (root_is_kept (Node NULL (Node NULL NULL "cat" 1) "" 42)).
  by_calls [Put "cat" 1].
Defined.

(** X11. On every reachable table and for every key that is not empty,
    [get] returns a value that is not zero exactly when some node whose
    pieces along the path from the root spell the key holds that
    value. *)
Theorem get_finds_what_is_stored : forall tab k v,
  reachable tab -> k <> "" ->
  (binds tab k v <-> symtab_get tab k = v /\ v <> 0).
Proof.
  intros tab k v Hr Hk. apply stored_iff_found; auto.
  now apply reachable_table.
Qed.

Lemma get_finds_what_is_stored_witness :
  binds (Node NULL (Node NULL NULL "cat" 1) "" 42) "cat" 1 <->
  symtab_get (Node NULL (Node NULL NULL "cat" 1) "" 42) "cat" = 1 /\ 1 <> 0.
Proof.
  apply (get_finds_what_is_stored
           (Node NULL (Node NULL NULL "cat" 1) "" 42) "cat" 1).
  - by_calls [Put "cat" 1].
  - discriminate.
Defined.

(** ** Further properties: [symtab_complete] *)

Lemma complete_unmodified : forall entry ident buffer,
  symtab_complete entry ident = (buffer, false) -> buffer = ident.
Proof.
  induction entry as [|n IHn ch IHch p v]; intros ident buffer H.
  - now injection H as <-.
  - unfold symtab_complete in H; fold symtab_complete in H.
    scan_on p ident as m e s S Hp Hk Hst.
    destruct e as [|ea e]; cbn [at_end] in H.
    + destruct s as [|sa s]; cbn [at_end] in H.
      * now injection H as <-.
      * destruct (symtab_complete ch (String sa s)) as [rest md] eqn:C.
        injection H as <- ->. rewrite (IHch _ _ C). now symmetry.
    + destruct m as [|ma m]; cbn [at_end] in H.
      * now apply IHn.
      * discriminate.
Qed.

(** X12. On every structure and every buffer, when [symtab_complete]
    reports no modification, the buffer holds what it held. *)
Theorem complete_unmodified_keeps_buffer : forall entry ident buffer,
  symtab_complete entry ident = (buffer, false) -> buffer = ident.
Proof.
  intros entry ident buffer H.
  destruct entry as [|n ch p v].
  - now injection H as <-.
  - now apply (complete_unmodified (Node n ch p v)).
Qed.

Lemma complete_unmodified_keeps_buffer_witness :
  "helpx" = "helpx".
Proof.
  apply (complete_unmodified_keeps_buffer
           (Node NULL
              (Node NULL (Node (Node NULL NULL "p" 2) NULL "lo" 1) "hel" 0)
              "" 42) "helpx" "helpx").
  reflexivity.
Defined.

Lemma complete_empty : forall c, wf c -> symtab_complete c "" = ("", false).
Proof.
  induction c as [|n IHn ch _ p v]; intros Hwf; [reflexivity|].
  destruct Hwf as (Hp & _ & Hwn & _). simpl.
  destruct p; [congruence|]. simpl. now apply IHn.
Qed.

Lemma complete_root : forall c b,
  symtab_complete (Node NULL c "" 42) b =
  if at_end b then (b, false) else symtab_complete c b.
Proof.
  intros c b. simpl. destruct b as [|a b]; [reflexivity|].
  cbn [at_end]. now destruct (symtab_complete c (String a b)).
Qed.

Lemma boundary_head : forall c K,
  wf c -> boundary c K -> K <> "" /\ In (head K) (heads c).
Proof.
  intros c K Hwf Hb. revert Hwf.
  induction Hb as [n ch p v|n ch p v rest _ IH|n ch p v s _ IH];
    intros (Hp & Hnin & Hwn & Hwc).
  - split; [assumption|now left].
  - split; [destruct p; [congruence|discriminate]|].
    left. simpl. now rewrite head_append.
  - destruct (IH Hwn) as (Hk & Hin). split; [assumption|now right].
Qed.

Lemma binds_boundary : forall c k v, binds c k v -> boundary c k.
Proof. induction 1; now constructor. Qed.

(** Completing a buffer that is a prefix of a path of pieces. *)
Lemma complete_boundary : forall c K,
  boundary c K -> wf c ->
  forall b rest, K = b ++ rest ->
  exists ext rest',
    symtab_complete c b = (b ++ ext, negb (at_end ext)) /\
    rest = ext ++ rest'.
Proof.
  intros c K Hb.
  induction Hb as [n ch p v|n ch p v rest0 Hb IH|n ch p v K Hb IH];
    intros (Hp0 & Hnin & Hwn & Hwc) b rest HK.
  - (* the path ends at this node *)
    subst p.
    assert (S : scan (b ++ rest) b = (b, rest, "")).
    { rewrite <- (append_empty_r b) at 2. apply scan_unique.
      now destruct rest. }
    unfold symtab_complete; fold symtab_complete. rewrite S.
    destruct rest as [|ra rest]; cbn [at_end].
    + exists "", "". now rewrite append_empty_r.
    + destruct b as [|ba b]; cbn [at_end].
      * exists "", (String ra rest). rewrite complete_empty by assumption.
        now split.
      * exists (String ra rest), "". now rewrite append_empty_r.
  - (* the path goes on below this node *)
    unfold symtab_complete; fold symtab_complete.
    scan_on p b as m e s S Hp Hk Hst.
    destruct e as [|ea e]; cbn [at_end].
    + rewrite append_empty_r in Hp. subst m b.
      rewrite append_assoc in HK. apply append_inj_l in HK.
      destruct s as [|sa s]; cbn [at_end].
      * exists "", rest. rewrite !append_empty_r. now split.
      * destruct (IH Hwc (String sa s) rest HK) as (ext & rest' & C & E).
        rewrite C. exists ext, rest'. now rewrite append_assoc.
    + subst p b. rewrite !append_assoc in HK. apply append_inj_l in HK.
      destruct s as [|sa s].
      * rewrite append_empty_r. simpl in HK.
        destruct m as [|ma m]; cbn [at_end].
        -- exists "", rest. rewrite complete_empty by assumption.
           now split.
        -- exists (String ea e), rest0. now split.
      * simpl in HK, Hst. injection HK as E _. now elim Hst.
  - (* the path is in a later sibling *)
    destruct (boundary_head _ _ Hwn Hb) as (HK0 & Hin).
    unfold symtab_complete; fold symtab_complete.
    rewrite scan_foreign; auto.
    + destruct p; [congruence|]. cbn [at_end]. now apply IH.
    + intros E. apply Hnin. rewrite <- E.
      destruct b as [|ba b]; [|now subst K].
      destruct p; [congruence|discriminate].
Qed.

Lemma complete_boundary_table : forall c K b rest,
  wf c -> boundary (Node NULL c "" 42) K -> K = b ++ rest ->
  exists ext rest',
    symtab_complete (Node NULL c "" 42) b = (b ++ ext, negb (at_end ext)) /\
    rest = ext ++ rest'.
Proof.
  intros c K b rest Hwf Hb HK. rewrite complete_root.
  destruct b as [|ba b]; cbn [at_end].
  - exists "", rest. now split.
  - inversion Hb as [| ? ? ? ? rest0 H1 | ? ? ? ? ? H1]; subst.
    + discriminate.
    + simpl in *. now apply (complete_boundary c rest0).
    + inversion H1.
Qed.



(** X14. On every reachable table, a buffer that holds a stored key is
    left as it is, and no modification is reported. *)
Theorem complete_stored_key : forall tab k v,
  reachable tab -> binds tab k v -> symtab_complete tab k = (k, false).
Proof.
  intros tab k v Hr Hb.
  destruct (reachable_table tab Hr) as (c & -> & Hwf & _).
  destruct (complete_boundary_table c k k "" Hwf) as (ext & rest' & C & E).
  - now apply (binds_boundary _ _ v).
  - now rewrite append_empty_r.
  - destruct ext; [|discriminate]. now rewrite append_empty_r in C.
Qed.

Lemma complete_stored_key_witness :
  symtab_complete (Node NULL (Node NULL NULL "hello" 1) "" 42) "hello" =
  ("hello", false).
Proof.
  apply (complete_stored_key
           (Node NULL (Node NULL NULL "hello" 1) "" 42) "hello" 1).
  - by_calls [Put "hello" 1].
  - change "hello" with ("" ++ "hello") at 2.
    apply binds_children. apply binds_here. discriminate.
Defined.

Lemma complete_modified_boundary : forall c b b',
  symtab_complete c b = (b', true) -> boundary c b'.
Proof.
  induction c as [|n IHn ch IHch p v]; intros b b' H; [discriminate|].
  unfold symtab_complete in H; fold symtab_complete in H.
  scan_on p b as m e s S Hp Hk Hst.
  destruct e as [|ea e]; cbn [at_end] in H.
  - rewrite append_empty_r in Hp. subst m.
    destruct s as [|sa s]; cbn [at_end] in H; [discriminate|].
    destruct (symtab_complete ch (String sa s)) as [rest md] eqn:C.
    injection H as <- ->. apply boundary_children. now apply (IHch _ _ C).
  - destruct m as [|ma m]; cbn [at_end] in H.
    + apply boundary_next. now apply (IHn b).
    + injection H as <-. subst p. apply boundary_here.
Qed.

(** X15. On every reachable table, completing twice is completing
    once: after any call of [symtab_complete], a second call on the
    buffer it left reports no modification and leaves the buffer. *)
Theorem complete_twice : forall tab b b' modified,
  reachable tab -> symtab_complete tab b = (b', modified) ->
  symtab_complete tab b' = (b', false).
Proof.
  intros tab b b' modified Hr H.
  destruct modified.
  - destruct (reachable_table tab Hr) as (c & -> & Hwf & _).
    apply complete_modified_boundary in H.
    destruct (complete_boundary_table c b' b' "" Hwf H)
      as (ext & rest' & C & E).
    + now rewrite append_empty_r.
    + destruct ext; [|discriminate]. now rewrite append_empty_r in C.
  - pose proof (complete_unmodified _ _ _ H) as E.
    subst b'. exact H.
Qed.

Lemma complete_twice_witness :
  symtab_complete (Node NULL (Node NULL NULL "hello" 1) "" 42) "hello" =
  ("hello", false).
Proof.
  apply (complete_twice
           (Node NULL (Node NULL NULL "hello" 1) "" 42) "help" "hello" true).
  - by_calls [Put "hello" 1].
  - reflexivity.
Defined.

Lemma node_leads_to_value : forall n ch p v,
  compact (Node n ch p v) ->
  exists rest w, binds (Node n ch p v) (p ++ rest) w.
Proof.
  intros n ch. revert n.
  induction ch as [|cn _ cc IHcc cp cv]; intros n p v (Hv & _ & Hcc).
  - destruct (Z.eq_dec v 0) as [E|N].
    + specialize (Hv E). simpl in Hv. lia.
    + exists "", v. rewrite append_empty_r. now constructor.
  - destruct (Z.eq_dec v 0) as [E|N].
    + destruct (IHcc cn cp cv Hcc) as (rest & w & B).
      exists (cp ++ rest), w. now apply binds_children.
    + exists "", v. rewrite append_empty_r. now constructor.
Qed.

Lemma boundary_binds : forall c s,
  boundary c s -> compact c -> exists rest w, binds c (s ++ rest) w.
Proof.
  intros c s Hb.
  induction Hb as [n ch p v|n ch p v rest0 _ IH|n ch p v s _ IH];
    intros Hco.
  - now apply node_leads_to_value.
  - destruct (IH (proj2 (proj2 Hco))) as (rest & w & B).
    exists rest, w. rewrite append_assoc. now apply binds_children.
  - destruct (IH (proj1 (proj2 Hco))) as (rest & w & B).
    exists rest, w. now apply binds_next.
Qed.

(** X16. On every reachable table, whatever [symtab_complete] writes is
    the beginning of a stored key: when it reports a modification, the
    buffer it leaves is not empty and some continuation of it is a key
    that [get] finds with a value that is not zero. *)
Theorem complete_writes_stored_prefix : forall tab b b',
  reachable tab -> symtab_complete tab b = (b', true) ->
  b' <> "" /\ exists rest, symtab_get tab (b' ++ rest) <> 0.
Proof.
  intros tab b b' Hr H.
  destruct (reachable_table tab Hr) as (c & -> & Hwf & Hco).
  rewrite complete_root in H.
  destruct (at_end b); [discriminate|].
  apply complete_modified_boundary in H.
  destruct (boundary_head c b' Hwf H) as (Hb' & _).
  split; [assumption|].
  destruct (boundary_binds c b' H Hco) as (rest & w & B).
  destruct (binds_key c _ w Hwf B) as (Hk & _ & Hw).
  exists rest. rewrite get_root.
  destruct (at_end (b' ++ rest)) eqn:E;
    [destruct (b' ++ rest); [congruence|discriminate]|].
  now rewrite (binds_get c _ w Hwf B).
Qed.

Lemma complete_writes_stored_prefix_witness :
  "hel" <> "" /\
  exists rest,
    symtab_get
      (Node NULL
         (Node NULL (Node (Node NULL NULL "p" 2) NULL "lo" 1) "hel" 0)
         "" 42) ("hel" ++ rest) <> 0.
Proof.
  apply (complete_writes_stored_prefix
           (Node NULL
              (Node NULL (Node (Node NULL NULL "p" 2) NULL "lo" 1) "hel" 0)
              "" 42) "he" "hel").
  - by_calls [Put "hello" 1; Put "help" 2].
  - reflexivity.
Defined.

(** ** Further properties: entries made and released *)







(** X19. On every reachable table, a node below the root that holds no
    value has two children or more; so every node without children
    holds a value, and no branch ends without a stored key. *)
Theorem valueless_node_branches : forall tab n,
  reachable tab -> inside n (Children tab) -> Value n = 0 ->
  (2 <= length (siblings (Children n)))%nat.
Proof.
  intros tab n Hr Hin Hv.
  destruct (reachable_table tab Hr) as (c & -> & _ & Hco).
  now apply (compact_inside c n).
Qed.

Lemma valueless_node_branches_witness :
  (2 <= length (siblings (Children
     (Node NULL (Node (Node NULL NULL "p" 2) NULL "lo" 1) "hel" 0))))%nat.
Proof.
  apply (valueless_node_branches
           (Node NULL
              (Node NULL (Node (Node NULL NULL "p" 2) NULL "lo" 1) "hel" 0)
              "" 42)
           (Node NULL (Node (Node NULL NULL "p" 2) NULL "lo" 1) "hel" 0)).
  - by_calls [Put "hello" 1; Put "help" 2].
  - eapply inside_here. reflexivity.
  - reflexivity.
Defined.

(** ** Further properties: [symtab_destroy] *)

Lemma destroy_count : forall c,
  length (filter is_entry_free (_symtab_destroy c)) = count_nodes c /\
  length (_symtab_destroy c) = (2 * count_nodes c)%nat.
Proof.
  induction c as [|n [IHn1 IHn2] ch [IHc1 IHc2] p v]; [now split|].
  simpl. rewrite !filter_app, !length_app, IHn1, IHn2, IHc1, IHc2.
  simpl. lia.
Qed.

Lemma destroy_pieces : forall c s,
  wf c -> In (Free_piece s) (_symtab_destroy c) -> s <> "".
Proof.
  induction c as [|n IHn ch IHch p v]; intros s Hwf Hin; [now elim Hin|].
  destruct Hwf as (Hp & _ & Hwn & Hwc). simpl in Hin.
  apply in_app_or in Hin. destruct Hin as [Hin|Hin]; [now apply IHn|].
  apply in_app_or in Hin. destruct Hin as [Hin|Hin]; [now apply IHch|].
  destruct Hin as [E|[E|[]]]; [|discriminate].
  now injection E as <-.
Qed.

(** X20. On every reachable table, [symtab_destroy] calls [free] on as
    many entries as the table has, the root among them, and on one
    piece for each entry but the root; no piece it frees is empty, so
    the string literal that is the root's piece is never freed. *)
Theorem destroy_frees_every_entry : forall tab,
  reachable tab ->
  length (filter is_entry_free (symtab_destroy tab)) = count_nodes tab /\
  length (symtab_destroy tab) = (2 * count_nodes tab - 1)%nat /\
  forall s, In (Free_piece s) (symtab_destroy tab) -> s <> "".
Proof.
  intros tab Hr. destruct (reachable_table tab Hr) as (c & -> & Hwf & _).
  unfold symtab_destroy. cbn [Children].
  destruct (destroy_count c) as (E1 & E2).
  rewrite filter_app, !length_app, E1, E2. simpl. repeat split; try lia.
  intros s Hin. apply in_app_or in Hin. destruct Hin as [Hin|[E|[]]].
  - now apply (destroy_pieces c).
  - discriminate.
Qed.

Lemma destroy_frees_every_entry_witness :
  length (filter is_entry_free
            (symtab_destroy (Node NULL (Node NULL NULL "cat" 1) "" 42))) =
    count_nodes (Node NULL (Node NULL NULL "cat" 1) "" 42) /\
  length (symtab_destroy (Node NULL (Node NULL NULL "cat" 1) "" 42)) =
    (2 * count_nodes (Node NULL (Node NULL NULL "cat" 1) "" 42) - 1)%nat /\
  forall s,
    In (Free_piece s)
       (symtab_destroy (Node NULL (Node NULL NULL "cat" 1) "" 42)) ->
    s <> "".
Proof.
  apply (destroy_frees_every_entry
           (Node NULL (Node NULL NULL "cat" 1) "" 42)).
  by_calls [Put "cat" 1].
Defined.

Lemma complete_foreign : forall c b,
  wf c -> ~ In (head b) (heads c) -> symtab_complete c b = (b, false).
Proof.
  induction c as [|n IHn ch _ p v]; intros b Hwf Hin; [reflexivity|].
  destruct Hwf as (Hp & _ & Hwn & _).
  unfold symtab_complete; fold symtab_complete.
  rewrite scan_foreign; auto.
  - destruct p; [congruence|]. cbn [at_end]. apply IHn; auto.
    intros H. apply Hin. now right.
  - intros E. apply Hin. left. simpl. now symmetry.
Qed.

(** X21. On every reachable table, a buffer that starts with a
    character no child of the root starts with, or that is empty, is
    left as it is, and no modification is reported. *)
Theorem complete_without_match : forall tab b,
  reachable tab -> ~ In (head b) (heads (Children tab)) ->
  symtab_complete tab b = (b, false).
Proof.
  intros tab b Hr Hin.
  destruct (reachable_table tab Hr) as (c & -> & Hwf & _).
  rewrite complete_root. destruct (at_end b); [reflexivity|].
  now apply complete_foreign.
Qed.

Lemma complete_without_match_witness :
  symtab_complete (Node NULL (Node NULL NULL "cat" 1) "" 42) "dog" =
  ("dog", false).
Proof.
  apply (complete_without_match
           (Node NULL (Node NULL NULL "cat" 1) "" 42) "dog").
  - by_calls [Put "cat" 1].
  - intros [H|[]]. discriminate.
Defined.
